(** * Expression syntax tree of actionlint: nodes, walker, ancestor search

    A shallow embedding of [expr_ast.go].

    - A pointer to a node struct is an address into a store of structs
      ([heap]); a value of the interface type [ExprNode] is nil ([None]) or
      such an address.  A non-nil interface value that wraps a nil pointer
      is not modelled: an address outside the store makes a dereference
      panic.
    - The tree is never written by this file's code, so the store is passed
      along unchanged.
    - [Token()], the walker and [FindParent] recurse or loop through the
      store, which can hold cycles; they take fuel, one unit per call or
      iteration, and the results say which fuel is enough.
    - A callback or predicate is a Go closure: it is modelled as a
      transformer of the state it closes over, and is assumed to return. *)

From Stdlib Require Import ZArith List String Floats.SpecFloat Lia.
From stdpp Require Import gmap strings list.

Open Scope string_scope.
Open Scope list_scope.
Set Warnings "-register-all".

(** * The program *)

(** ** Outcome of a run *)

(** A run of Go code either returns, panics (nil dereference), or has not
    returned within the fuel it was given. *)
Inductive outcome (A : Type) : Type :=
| Ret (a : A)
| Panic
| OutOfFuel.

Arguments Ret {A} a.
Arguments Panic {A}.
Arguments OutOfFuel {A}.

Definition bind {A B : Type} (m : outcome A) (k : A -> outcome B) : outcome B :=
  match m with
  | Ret a => k a
  | Panic => Panic
  | OutOfFuel => OutOfFuel
  end.

Notation "'let*' x ':=' m 'in' k" := (bind m (fun x => k))
  (at level 10, x name, m at level 100, k at level 200).

(** ** Tokens *)

(** Modelled from the spec: the [Token] struct is declared in another file
    of the package.  The spec describes it as a lexical unit carrying a
    line/column position and its literal text. *)
Record Token : Type := mkToken {
  Value : string;
  Line : Z;
  Column : Z
}.

(** ** Operator kinds *)

(** [type CompareOpNodeKind int], with the constants numbered by [iota]. *)
Definition CompareOpNodeKind : Type := Z.

Definition CompareOpNodeKindInvalid : CompareOpNodeKind := 0%Z.
Definition CompareOpNodeKindLess : CompareOpNodeKind := 1%Z.
Definition CompareOpNodeKindLessEq : CompareOpNodeKind := 2%Z.
Definition CompareOpNodeKindGreater : CompareOpNodeKind := 3%Z.
Definition CompareOpNodeKindGreaterEq : CompareOpNodeKind := 4%Z.
Definition CompareOpNodeKindEq : CompareOpNodeKind := 5%Z.
Definition CompareOpNodeKindNotEq : CompareOpNodeKind := 6%Z.

Definition IsEqualityOp (kind : CompareOpNodeKind) : bool :=
  (kind =? CompareOpNodeKindEq)%Z || (kind =? CompareOpNodeKindNotEq)%Z.

Definition CompareOpNodeKind_String (kind : CompareOpNodeKind) : string :=
  if (kind =? CompareOpNodeKindLess)%Z then "<"
  else if (kind =? CompareOpNodeKindLessEq)%Z then "<="
  else if (kind =? CompareOpNodeKindGreater)%Z then ">"
  else if (kind =? CompareOpNodeKindGreaterEq)%Z then ">="
  else if (kind =? CompareOpNodeKindEq)%Z then "=="
  else if (kind =? CompareOpNodeKindNotEq)%Z then "!="
  else "".

(** [type LogicalOpNodeKind int]. *)
Definition LogicalOpNodeKind : Type := Z.

Definition LogicalOpNodeKindInvalid : LogicalOpNodeKind := 0%Z.
Definition LogicalOpNodeKindAnd : LogicalOpNodeKind := 1%Z.
Definition LogicalOpNodeKindOr : LogicalOpNodeKind := 2%Z.

Definition LogicalOpNodeKind_String (k : LogicalOpNodeKind) : string :=
  if (k =? LogicalOpNodeKindAnd)%Z then "&&"
  else if (k =? LogicalOpNodeKindOr)%Z then "||"
  else "INVALID LOGICAL OPERATOR".

(** ** Nodes *)

(** The address of a node struct. *)
Definition addr : Type := positive.

(** A value of the interface type [ExprNode]: nil, or a pointer to a node. *)
Definition ptr : Type := option addr.

(** The thirteen node structs.  [tok] is a [*Token] (nil is [None]); the
    [float64] of [FloatNode] is kept as its IEEE 754 value. *)
Inductive ExprNode : Type :=
| VariableNode (Name : string) (tok : option Token) (parent : ptr)
| NullNode (tok : option Token) (parent : ptr)
| BoolNode (Value : bool) (tok : option Token) (parent : ptr)
| IntNode (Value : Z) (tok : option Token) (parent : ptr)
| FloatNode (Value : spec_float) (tok : option Token) (parent : ptr)
| StringNode (Value : string) (tok : option Token) (parent : ptr)
| ObjectDerefNode (Receiver : ptr) (Property : string) (parent : ptr)
| ArrayDerefNode (Receiver : ptr) (parent : ptr)
| IndexAccessNode (Operand : ptr) (Index : ptr) (parent : ptr)
| NotOpNode (Operand : ptr) (tok : option Token) (parent : ptr)
| CompareOpNode (Kind : CompareOpNodeKind) (Left : ptr) (Right : ptr) (parent : ptr)
| LogicalOpNode (Kind : LogicalOpNodeKind) (Left : ptr) (Right : ptr) (parent : ptr)
| FuncCallNode (Callee : string) (Args : list ptr) (tok : option Token) (parent : ptr).

(** The store of allocated nodes. *)
Abbreviation heap := (gmap addr ExprNode).

(** Dereference of an interface value for a method call: nil panics. *)
Definition deref (h : heap) (n : ptr) : outcome ExprNode :=
  match n with
  | None => Panic
  | Some a => match h !! a with
              | Some nd => Ret nd
              | None => Panic
              end
  end.

(** [Parent()], the same field read in all thirteen methods. *)
Definition Parent_of (nd : ExprNode) : ptr :=
  match nd with
  | VariableNode _ _ parent => parent
  | NullNode _ parent => parent
  | BoolNode _ _ parent => parent
  | IntNode _ _ parent => parent
  | FloatNode _ _ parent => parent
  | StringNode _ _ parent => parent
  | ObjectDerefNode _ _ parent => parent
  | ArrayDerefNode _ parent => parent
  | IndexAccessNode _ _ parent => parent
  | NotOpNode _ _ parent => parent
  | CompareOpNode _ _ _ parent => parent
  | LogicalOpNode _ _ _ parent => parent
  | FuncCallNode _ _ _ parent => parent
  end.

Definition Parent (h : heap) (n : ptr) : outcome ptr :=
  let* nd := deref h n in Ret (Parent_of nd).

(** [Token()]: six leaf structs, [NotOpNode] and [FuncCallNode] return
    their [tok] field; the other five call [Token()] on a child. *)
Fixpoint Token_of (fuel : nat) (h : heap) (n : ptr) : outcome (option Token) :=
  match fuel with
  | O => OutOfFuel
  | S fuel =>
    let* nd := deref h n in
    match nd with
    | VariableNode _ tok _ => Ret tok
    | NullNode tok _ => Ret tok
    | BoolNode _ tok _ => Ret tok
    | IntNode _ tok _ => Ret tok
    | FloatNode _ tok _ => Ret tok
    | StringNode _ tok _ => Ret tok
    | ObjectDerefNode Receiver _ _ => Token_of fuel h Receiver
    | ArrayDerefNode Receiver _ => Token_of fuel h Receiver
    | IndexAccessNode Operand _ _ => Token_of fuel h Operand
    | NotOpNode _ tok _ => Ret tok
    | CompareOpNode _ Left _ _ => Token_of fuel h Left
    | LogicalOpNode _ Left _ _ => Token_of fuel h Left
    | FuncCallNode _ _ tok _ => Ret tok
    end
  end.

(** ** The walker *)

(** [VisitExprNodeFunc]: a Go callback returns nothing and acts on the
    state it closes over, so it is a transformer of that state. *)
Definition VisitExprNodeFunc (St : Type) : Type := ptr -> ptr -> bool -> St -> St.

(** [for i := range xs { body(xs[i]) }]. *)
Fixpoint forRange {A St : Type} (body : A -> St -> outcome St) (xs : list A) (s : St)
  : outcome St :=
  match xs with
  | [] => Ret s
  | x :: rest => let* s' := body x s in forRange body rest s'
  end.

Fixpoint visitExprNode {St : Type} (fuel : nat) (h : heap) (n p : ptr)
    (f : VisitExprNodeFunc St) (s : St) : outcome St :=
  match fuel with
  | O => OutOfFuel
  | S fuel =>
    let s := f n p true s in
    let* s :=
         match n with
         | None => Ret s
         | Some a =>
           match h !! a with
           | None => Panic
           | Some (ObjectDerefNode Receiver _ _) => visitExprNode fuel h Receiver n f s
           | Some (ArrayDerefNode Receiver _) => visitExprNode fuel h Receiver n f s
           | Some (IndexAccessNode Operand Index _) =>
             let* s := visitExprNode fuel h Index n f s in
             visitExprNode fuel h Operand n f s
           | Some (NotOpNode Operand _ _) => visitExprNode fuel h Operand n f s
           | Some (CompareOpNode _ Left Right _) =>
             let* s := visitExprNode fuel h Left n f s in
             visitExprNode fuel h Right n f s
           | Some (LogicalOpNode _ Left Right _) =>
             let* s := visitExprNode fuel h Left n f s in
             visitExprNode fuel h Right n f s
           | Some (FuncCallNode _ Args _ _) =>
             forRange (fun arg s => visitExprNode fuel h arg n f s) Args s
           | Some _ => Ret s
           end
         end in
    Ret (f n p false s)
  end.

Definition VisitExprNode {St : Type} (fuel : nat) (h : heap) (n : ptr)
    (f : VisitExprNodeFunc St) (s : St) : outcome St :=
  visitExprNode fuel h n None f s.

(** ** Ancestor search *)

(** [FindParent[T]]: the predicate is a Go closure, so it reads and writes
    a state [St]; [zero] is the zero value of [T]. *)
Fixpoint FindParent_loop {T St : Type} (fuel : nat) (h : heap) (parent : ptr)
    (predicate : ptr -> St -> T * bool * St) (zero : T) (s : St)
  : outcome (T * bool * St) :=
  match fuel with
  | O => OutOfFuel
  | S fuel =>
    match parent with
    | None => Ret (zero, false, s)
    | Some _ =>
      let '(t, ok, s) := predicate parent s in
      if ok then Ret (t, true, s)
      else
        let* parent := Parent h parent in
        FindParent_loop fuel h parent predicate zero s
    end
  end.

Definition FindParent {T St : Type} (fuel : nat) (h : heap) (n : ptr)
    (predicate : ptr -> St -> T * bool * St) (zero : T) (s : St)
  : outcome (T * bool * St) :=
  let* parent := Parent h n in
  FindParent_loop fuel h parent predicate zero s.

(** * Vocabulary of the statements

    The definitions from here on are not part of the program; the theorems
    are stated with them.  [children] lists the child fields of the struct
    declarations. *)

(** ** Trees laid out in the store *)

(** The child fields of a struct, in the order the struct declares them. *)
Definition children (nd : ExprNode) : list ptr :=
  match nd with
  | ObjectDerefNode Receiver _ _ => [Receiver]
  | ArrayDerefNode Receiver _ => [Receiver]
  | IndexAccessNode Operand Index _ => [Operand; Index]
  | NotOpNode Operand _ _ => [Operand]
  | CompareOpNode _ Left Right _ => [Left; Right]
  | LogicalOpNode _ Left Right _ => [Left; Right]
  | FuncCallNode _ Args _ _ => Args
  | _ => []
  end.

(** A finite tree of nodes: the address of the root, the struct found
    there, and one subtree per child field. *)
Inductive tree : Type :=
| Node (a : addr) (nd : ExprNode) (kids : list tree).

Definition root (t : tree) : addr := match t with Node a _ _ => a end.
Definition subtrees (t : tree) : list tree := match t with Node _ _ kids => kids end.

Fixpoint size (t : tree) : nat :=
  match t with Node _ _ kids => S (list_sum (map size kids)) end.

Fixpoint height (t : tree) : nat :=
  match t with Node _ _ kids => S (list_max (map height kids)) end.

(** The addresses of the nodes of a tree, one entry per position. *)
Fixpoint addrs (t : tree) : list addr :=
  match t with Node a _ kids => a :: flat_map addrs kids end.

(** [repr h t]: the store [h] holds the tree [t]: every node of [t] is
    allocated and each of its child fields points to the root of the
    matching subtree (so no child field is nil). *)
Inductive repr (h : heap) : tree -> Prop :=
| repr_Node a nd kids :
    h !! a = Some nd ->
    children nd = map (fun k => Some (root k)) kids ->
    Forall (repr h) kids ->
    repr h (Node a nd kids).

(** [occurs p t par s]: in the tree [t], itself hanging below [p], the
    subtree [s] hangs below [par]. *)
Inductive occurs : ptr -> tree -> ptr -> tree -> Prop :=
| occurs_here p t : occurs p t p t
| occurs_below p a nd kids k par s :
    k ∈ kids -> occurs (Some a) k par s -> occurs p (Node a nd kids) par s.

(** ** Callback invocations *)

(** One invocation [f(node, parent, entering)]. *)
Record event : Type := Ev {
  ev_node : ptr;
  ev_parent : ptr;
  ev_entering : bool
}.

(** The callback that appends each invocation to a log. *)
Definition record : VisitExprNodeFunc (list event) :=
  fun node parent entering acc => acc ++ [Ev node parent entering].

(** Invoking [f] along a list of invocations, first to last. *)
Definition run {St : Type} (f : VisitExprNodeFunc St) (evs : list event) (s : St) : St :=
  fold_left (fun s e => f (ev_node e) (ev_parent e) (ev_entering e) s) evs s.

(** The reference trace of a depth-first walk of [t] entered from [p]:
    the entering invocation, the subtrees one after the other, the leaving
    invocation.  The two subtrees of an index access are taken index
    first. *)
Fixpoint events (p : ptr) (t : tree) : list event :=
  match t with
  | Node a nd kids =>
    Ev (Some a) p true ::
      match nd, kids with
      | IndexAccessNode _ _ _, [operand; index] =>
        events (Some a) index ++ events (Some a) operand
      | _, _ => flat_map (events (Some a)) kids
      end ++ [Ev (Some a) p false]
  end.

(** The entering invocations among [evs], as the nodes entered. *)
Definition entered (evs : list event) : list ptr :=
  map ev_node (filter (fun e => ev_entering e = true) evs).

(** The leaving invocations among [evs], as the nodes left. *)
Definition exited (evs : list event) : list ptr :=
  map ev_node (filter (fun e => ev_entering e = false) evs).

(** The order in which the walker takes the subtrees [kids] of a node. *)
Definition walk_order (nd : ExprNode) (kids : list tree) : list tree :=
  match nd, kids with
  | IndexAccessNode _ _ _, [operand; index] => [index; operand]
  | _, _ => kids
  end.

(** [reachable h a b]: [b] is [a] or is reached from [a] through child
    fields of the structs in [h]. *)
Inductive reachable (h : heap) : addr -> addr -> Prop :=
| reachable_here a : reachable h a a
| reachable_child a nd c b :
    h !! a = Some nd -> In (Some c) (children nd) -> reachable h c b ->
    reachable h a b.

(** [ancestors h a chain]: following [Parent()] from the node at [a]
    passes through [chain], nearest first, and then reaches nil. *)
Inductive ancestors (h : heap) : addr -> list addr -> Prop :=
| ancestors_root a nd :
    h !! a = Some nd -> Parent_of nd = None -> ancestors h a []
| ancestors_up a nd p chain :
    h !! a = Some nd -> Parent_of nd = Some p -> ancestors h p chain ->
    ancestors h a (p :: chain).

(** A predicate without effects of its own, with the nodes it is applied
    to appended to a log. *)
Definition logged {T : Type} (pred : ptr -> T * bool) : ptr -> list ptr -> T * bool * list ptr :=
  fun n acc => (pred n, acc ++ [n]).

(** The reference search, as the comment on [FindParent] words it: apply
    the predicate to each parent in turn until it returns true. *)
Fixpoint first_match {T St : Type} (predicate : ptr -> St -> T * bool * St) (zero : T)
    (chain : list addr) (s : St) : T * bool * St :=
  match chain with
  | [] => (zero, false, s)
  | p :: rest =>
    let '(t, ok, s') := predicate (Some p) s in
    if ok then (t, true, s') else first_match predicate zero rest s'
  end.

(** [delegates h a b]: [Token()] of the node at [a] is the call of
    [Token()] on its child at [b]. *)
Inductive delegates (h : heap) : addr -> addr -> Prop :=
| delegates_ObjectDeref a b prop par :
    h !! a = Some (ObjectDerefNode (Some b) prop par) -> delegates h a b
| delegates_ArrayDeref a b par :
    h !! a = Some (ArrayDerefNode (Some b) par) -> delegates h a b
| delegates_IndexAccess a b idx par :
    h !! a = Some (IndexAccessNode (Some b) idx par) -> delegates h a b
| delegates_CompareOp a kind b r par :
    h !! a = Some (CompareOpNode kind (Some b) r par) -> delegates h a b
| delegates_LogicalOp a kind b r par :
    h !! a = Some (LogicalOpNode kind (Some b) r par) -> delegates h a b.

(** [hops h k a b]: [k] delegations lead from [a] to [b]. *)
Inductive hops (h : heap) : nat -> addr -> addr -> Prop :=
| hops_O a : hops h 0 a a
| hops_S k a b c : delegates h a b -> hops h k b c -> hops h (S k) a c.

(** The [tok] field of the structs that have one. *)
Definition own_token (nd : ExprNode) : option (option Token) :=
  match nd with
  | VariableNode _ tok _ => Some tok
  | NullNode tok _ => Some tok
  | BoolNode _ tok _ => Some tok
  | IntNode _ tok _ => Some tok
  | FloatNode _ tok _ => Some tok
  | StringNode _ tok _ => Some tok
  | NotOpNode _ tok _ => Some tok
  | FuncCallNode _ _ tok _ => Some tok
  | _ => None
  end.

(** The struct with its [parent] field cleared. *)
Definition without_parent (nd : ExprNode) : ExprNode :=
  match nd with
  | VariableNode Name tok _ => VariableNode Name tok None
  | NullNode tok _ => NullNode tok None
  | BoolNode v tok _ => BoolNode v tok None
  | IntNode v tok _ => IntNode v tok None
  | FloatNode v tok _ => FloatNode v tok None
  | StringNode v tok _ => StringNode v tok None
  | ObjectDerefNode Receiver Property _ => ObjectDerefNode Receiver Property None
  | ArrayDerefNode Receiver _ => ArrayDerefNode Receiver None
  | IndexAccessNode Operand Index _ => IndexAccessNode Operand Index None
  | NotOpNode Operand tok _ => NotOpNode Operand tok None
  | CompareOpNode Kind Left Right _ => CompareOpNode Kind Left Right None
  | LogicalOpNode Kind Left Right _ => LogicalOpNode Kind Left Right None
  | FuncCallNode Callee Args tok _ => FuncCallNode Callee Args tok None
  end.

(** ** Example trees *)

(** [foo.bar[baz.qux]], one struct per address, parents wired. *)
Definition ex_index_heap : heap :=
  list_to_map
    [ (1%positive, IndexAccessNode (Some 2%positive) (Some 4%positive) None);
      (2%positive, ObjectDerefNode (Some 3%positive) "bar" (Some 1%positive));
      (3%positive, VariableNode "foo" (Some (mkToken "foo" 1 1)) (Some 2%positive));
      (4%positive, ObjectDerefNode (Some 5%positive) "qux" (Some 1%positive));
      (5%positive, VariableNode "baz" (Some (mkToken "baz" 1 9)) (Some 4%positive)) ].

Definition ex_foo_bar : tree :=
  Node 2%positive (ObjectDerefNode (Some 3%positive) "bar" (Some 1%positive))
    [Node 3%positive (VariableNode "foo" (Some (mkToken "foo" 1 1)) (Some 2%positive)) []].

Definition ex_baz_qux : tree :=
  Node 4%positive (ObjectDerefNode (Some 5%positive) "qux" (Some 1%positive))
    [Node 5%positive (VariableNode "baz" (Some (mkToken "baz" 1 9)) (Some 4%positive)) []].

Definition ex_index_tree : tree :=
  Node 1%positive (IndexAccessNode (Some 2%positive) (Some 4%positive) None)
    [ex_foo_bar; ex_baz_qux].

(** [format('{0}-{1}', name, 1)]. *)
Definition ex_call_heap : heap :=
  list_to_map
    [ (1%positive, FuncCallNode "format"
                     [Some 2%positive; Some 3%positive; Some 4%positive]
                     (Some (mkToken "format" 1 1)) None);
      (2%positive, StringNode "{0}-{1}" (Some (mkToken "'{0}-{1}'" 1 8)) (Some 1%positive));
      (3%positive, VariableNode "name" (Some (mkToken "name" 1 19)) (Some 1%positive));
      (4%positive, IntNode 1 (Some (mkToken "1" 1 25)) (Some 1%positive)) ].

Definition ex_call_args : list tree :=
  [ Node 2%positive
      (StringNode "{0}-{1}" (Some (mkToken "'{0}-{1}'" 1 8)) (Some 1%positive)) [];
    Node 3%positive (VariableNode "name" (Some (mkToken "name" 1 19)) (Some 1%positive)) [];
    Node 4%positive (IntNode 1 (Some (mkToken "1" 1 25)) (Some 1%positive)) [] ].

(** A dereference whose receiver was left nil. *)
Definition ex_nil_heap : heap :=
  list_to_map [ (1%positive, ObjectDerefNode None "bar" None) ].

(** A predicate as callers write it: narrow the node to an index access. *)
Definition ex_is_index (h : heap) (n : ptr) : ptr * bool :=
  match n with
  | Some a =>
    match h !! a with
    | Some (IndexAccessNode _ _ _) => (n, true)
    | _ => (None, false)
    end
  | None => (None, false)
  end.

(** The six structs without child fields. *)
Definition is_leaf (nd : ExprNode) : Prop :=
  match nd with
  | VariableNode _ _ _ | NullNode _ _ | BoolNode _ _ _
  | IntNode _ _ _ | FloatNode _ _ _ | StringNode _ _ _ => True
  | _ => False
  end.

(** ** Vocabulary for stores that are not trees *)

(** The image of an outcome. *)
Definition outcome_map {A B : Type} (g : A -> B) (o : outcome A) : outcome B :=
  match o with
  | Ret a => Ret (g a)
  | Panic => Panic
  | OutOfFuel => OutOfFuel
  end.

(** The trace of a walk: what the logging callback has recorded when the
    walk returns. *)
Definition trace (fuel : nat) (h : heap) (n p : ptr) : outcome (list event) :=
  visitExprNode fuel h n p record [].

(** [descends h a b]: [b] is reached from [a] through one or more child
    fields. *)
Inductive descends (h : heap) : addr -> addr -> Prop :=
| descends_child a nd c b :
    h !! a = Some nd -> In (Some c) (children nd) -> reachable h c b ->
    descends h a b.

(** A consumer's stack of the nodes entered and not yet left.  [nested evs
    stack] replays [evs]: an entering invocation must name the top of the
    stack as parent and pushes its node; a leaving invocation must name the
    node on top, pops it, and must name the new top as parent.  The top of
    the empty stack is nil. *)
Fixpoint nested (evs : list event) (stack : list ptr) : option (list ptr) :=
  match evs with
  | [] => Some stack
  | Ev n p true :: rest =>
    if decide (p = hd None stack) then nested rest (n :: stack) else None
  | Ev n p false :: rest =>
    match stack with
    | m :: below =>
      if decide (n = m /\ p = hd None below) then nested rest below else None
    | [] => None
    end
  end.

(** [wired p t]: the [parent] field of every node of [t] names the node
    that holds it in a child field, and that of the root of [t] is [p]. *)
Inductive wired : ptr -> tree -> Prop :=
| wired_Node p a nd kids :
    Parent_of nd = p -> Forall (wired (Some a)) kids -> wired p (Node a nd kids).

(** [path t s chain]: [s] lies in [t] below the nodes [chain], the nearest
    first and the root of [t] last. *)
Inductive path : tree -> tree -> list addr -> Prop :=
| path_here t : path t t []
| path_below a nd kids k s chain :
    k ∈ kids -> path k s chain -> path (Node a nd kids) s (chain ++ [a]).

(** [chain_from h p chain]: following [Parent()] from [p] itself passes
    through [chain] and then reaches nil. *)
Inductive chain_from (h : heap) : ptr -> list addr -> Prop :=
| chain_from_nil : chain_from h None []
| chain_from_cons q nd rest :
    h !! q = Some nd -> chain_from h (Parent_of nd) rest ->
    chain_from h (Some q) (q :: rest).

(** [climbs h a pre q]: following [Parent()] from the node at [a] passes
    through [pre] and then reaches [q]; what lies above [q] is left open. *)
Inductive climbs (h : heap) : addr -> list addr -> addr -> Prop :=
| climbs_parent a nd q :
    h !! a = Some nd -> Parent_of nd = Some q -> climbs h a [] q
| climbs_up a nd x pre q :
    h !! a = Some nd -> Parent_of nd = Some x -> climbs h x pre q ->
    climbs h a (x :: pre) q.


(** The six comparison kinds and the two logical kinds. *)
Definition valid_compare (kind : CompareOpNodeKind) : Prop := (1 <= kind <= 6)%Z.
Definition valid_logical (k : LogicalOpNodeKind) : Prop := (1 <= k <= 2)%Z.

(** ** More example stores *)

(** [!x] whose operand field points back at the [!] node itself. *)
Definition ex_loop_heap : heap :=
  list_to_map [ (1%positive, NotOpNode (Some 1%positive) None None) ].

(** A variable whose [parent] field names the variable itself. *)
Definition ex_parent_loop_heap : heap :=
  list_to_map [ (1%positive, VariableNode "x" None (Some 1%positive)) ].

(** [x == x] with both sides pointing at one and the same variable node. *)
Definition ex_shared_heap : heap :=
  list_to_map
    [ (1%positive, CompareOpNode CompareOpNodeKindEq (Some 2%positive) (Some 2%positive) None);
      (2%positive, VariableNode "x" (Some (mkToken "x" 1 1)) (Some 1%positive)) ].

Definition ex_shared_tree : tree :=
  Node 1%positive
    (CompareOpNode CompareOpNodeKindEq (Some 2%positive) (Some 2%positive) None)
    [ Node 2%positive (VariableNode "x" (Some (mkToken "x" 1 1)) (Some 1%positive)) [];
      Node 2%positive (VariableNode "x" (Some (mkToken "x" 1 1)) (Some 1%positive)) [] ].



(** * Lemmas *)

(** ** Lists *)

Lemma length_flat_map {A B} (g : A -> list B) l :
  length (flat_map g l) = list_sum (map (fun x => length (g x)) l).
Proof.
  induction l as [|x l IH]; simpl; [reflexivity|].
  by rewrite length_app, IH.
Qed.

Lemma list_sum_Permutation l1 l2 : Permutation l1 l2 -> list_sum l1 = list_sum l2.
Proof. induction 1; simpl; lia. Qed.

Lemma flat_map_Permutation_pointwise {A B} (g1 g2 : A -> list B) l :
  Forall (fun x => Permutation (g1 x) (g2 x)) l ->
  Permutation (flat_map g1 l) (flat_map g2 l).
Proof.
  induction 1 as [|x l Hx _ IH]; simpl; [reflexivity|].
  by apply Permutation_app.
Qed.

Lemma map_flat_map {A B C} (g : B -> C) (k : A -> list B) l :
  map g (flat_map k l) = flat_map (fun x => map g (k x)) l.
Proof.
  induction l as [|x l IH]; simpl; [reflexivity|]. by rewrite map_app, IH.
Qed.

Lemma flat_map_split {A B} (g : A -> list B) l1 x l2 :
  flat_map g (l1 ++ x :: l2) = flat_map g l1 ++ g x ++ flat_map g l2.
Proof. by rewrite flat_map_app. Qed.

Lemma list_max_In_le (l : list nat) x : In x l -> x <= list_max l.
Proof.
  induction l as [|y l IH]; simpl; [tauto|].
  intros [->|Hin]; [lia|]. specialize (IH Hin). lia.
Qed.

Lemma NoDup_app_middle {A} (l1 l2 l3 : list A) x :
  NoDup (l1 ++ l2 ++ l3) -> x ∈ l1 ++ l3 -> x ∉ l2.
Proof.
  rewrite !NoDup_app. intros (_ & H12 & _ & H23 & _) Hx Hx2.
  apply elem_of_app in Hx as [Hx|Hx].
  - apply (H12 x Hx). apply elem_of_app. by left.
  - by apply (H23 x Hx2).
Qed.

Lemma NoDup_map_Some (l : list addr) : NoDup l -> NoDup (map Some l).
Proof. intros Hl. change (map Some l) with (Some <$> l). by apply (NoDup_fmap_2 _). Qed.

Lemma filter_none {A} (P : A -> Prop) `{forall x, Decision (P x)} (l : list A) :
  (forall x, x ∈ l -> ~ P x) -> filter P l = [].
Proof.
  induction l as [|x l IH]; intros Hl; [done|].
  rewrite filter_cons. destruct (decide (P x)) as [HP|_].
  - exfalso. apply (Hl x); [by left|done].
  - apply IH. intros y Hy. apply Hl. by right.
Qed.

Lemma lookup_segments {A} (P Q : A -> Prop) (l0 l1 l2 l3 : list A) i j x y :
  (l0 ++ l1 ++ l2 ++ l3) !! i = Some x ->
  (l0 ++ l1 ++ l2 ++ l3) !! j = Some y ->
  P x -> Q y ->
  (forall z, z ∈ l0 ++ l2 ++ l3 -> ~ P z) ->
  (forall z, z ∈ l0 ++ l1 ++ l3 -> ~ Q z) ->
  i < j.
Proof.
  intros Hi Hj HP HQ HnP HnQ.
  apply lookup_app_Some in Hi as [Hi|[Hi0 Hi]].
  { exfalso. apply (HnP x); [|done]. apply elem_of_app. left.
    by eapply list_elem_of_lookup_2. }
  apply lookup_app_Some in Hi as [Hi|[Hi1 Hi]].
  2:{ exfalso. apply (HnP x); [|done]. apply elem_of_app. right.
      by eapply list_elem_of_lookup_2. }
  apply lookup_lt_Some in Hi.
  apply lookup_app_Some in Hj as [Hj|[Hj0 Hj]].
  { exfalso. apply (HnQ y); [|done]. apply elem_of_app. left.
    by eapply list_elem_of_lookup_2. }
  apply lookup_app_Some in Hj as [Hj|[Hj1 Hj]].
  { exfalso. apply (HnQ y); [|done]. apply elem_of_app. right.
    apply elem_of_app. left. by eapply list_elem_of_lookup_2. }
  lia.
Qed.

(** ** Trees *)

Lemma tree_rect_Forall (P : tree -> Prop) :
  (forall a nd kids, Forall P kids -> P (Node a nd kids)) ->
  forall t, P t.
Proof.
  intros step. fix IH 1. intros [a nd kids]. apply step.
  induction kids as [|k kids IHkids]; constructor; [apply IH | exact IHkids].
Qed.

Lemma height_kid a nd kids k : In k kids -> height k < height (Node a nd kids).
Proof.
  intros Hin. simpl. apply Nat.lt_succ_r, list_max_In_le, in_map, Hin.
Qed.

Lemma repr_inv h a nd kids :
  repr h (Node a nd kids) ->
  h !! a = Some nd /\ children nd = map (fun k => Some (root k)) kids
  /\ forall k, In k kids -> repr h k.
Proof.
  inversion 1 as [a' nd' kids' Hlook Hkids Hall]; subst.
  repeat split; try assumption.
  intros k Hk. rewrite Forall_forall in Hall. apply Hall. by apply list_elem_of_In.
Qed.

(** Shape of the subtree list forced by a fixed list of child fields. *)
Ltac kids_shape Hkids kids :=
  lazymatch type of Hkids with
  | [] = map _ _ => destruct kids; [|discriminate Hkids]
  | [_] = map _ _ =>
    destruct kids as [|? [|? ?]]; try discriminate Hkids
  | [_; _] = map _ _ =>
    destruct kids as [|? [|? [|? ?]]]; try discriminate Hkids
  | _ => idtac
  end.

Lemma root_addrs t : root t ∈ addrs t.
Proof. destruct t. cbn [root addrs]. by left. Qed.

Lemma size_addrs t : size t = length (addrs t).
Proof.
  induction t as [a nd kids IH] using tree_rect_Forall. cbn [size addrs length].
  f_equal. rewrite length_flat_map.
  induction IH as [|k kids Hk _ IHkids]; simpl; congruence.
Qed.

Lemma walk_order_Permutation nd kids : Permutation (walk_order nd kids) kids.
Proof.
  destruct nd; try reflexivity.
  destruct kids as [|k1 [|k2 [|k3 kids]]]; try reflexivity.
  simpl. apply perm_swap.
Qed.

Lemma walk_order_elem nd kids k : k ∈ walk_order nd kids <-> k ∈ kids.
Proof. by rewrite (walk_order_Permutation nd kids). Qed.

Lemma occurs_inv p a nd kids par s :
  occurs p (Node a nd kids) par s ->
  (par = p /\ s = Node a nd kids)
  \/ exists k, k ∈ kids /\ occurs (Some a) k par s.
Proof. inversion 1; subst; [by left|right; eauto]. Qed.

Lemma occurs_addrs p t par s a : occurs p t par s -> a ∈ addrs s -> a ∈ addrs t.
Proof.
  induction 1 as [|p a' nd kids k par s Hk _ IH]; [done|]. intros Ha.
  cbn [addrs]. apply elem_of_cons. right.
  apply list_elem_of_In, in_flat_map. exists k.
  split; apply list_elem_of_In; auto.
Qed.


Lemma occurs_parent h p t par s :
  repr h t -> occurs p t par s ->
  (par = p /\ s = t)
  \/ exists pa nd, par = Some pa /\ pa ∈ addrs t /\ h !! pa = Some nd
                   /\ Some (root s) ∈ children nd.
Proof.
  intros Hrepr Hocc. induction Hocc as [|p a nd kids k par s Hk Hocc IH]; [by left|].
  right. apply repr_inv in Hrepr as (Hlook & Hkids & Hsub).
  assert (Hin : In k kids) by by apply list_elem_of_In.
  destruct (IH (Hsub k Hin)) as [[-> ->]|(pa & nd' & -> & Hpa & Hlook' & Hc)].
  - exists a, nd. split; [done|]. split; [apply elem_of_cons; by left|].
    split; [done|]. rewrite Hkids.
    by apply list_elem_of_In, (in_map (fun k => Some (root k))).
  - exists pa, nd'. split; [done|]. split; [|done].
    cbn [addrs]. apply elem_of_cons. right.
    apply list_elem_of_In, in_flat_map. exists k.
    split; [done|]. by apply list_elem_of_In.
Qed.

Lemma addrs_occurs p t a :
  a ∈ addrs t -> exists par s, occurs p t par s /\ root s = a.
Proof.
  revert p. induction t as [b nd kids IH] using tree_rect_Forall. intros p.
  cbn [addrs]. intros [->|Ha]%elem_of_cons.
  - exists p, (Node b nd kids). split; [constructor|done].
  - apply list_elem_of_In, in_flat_map in Ha as (k & Hk & Ha).
    rewrite Forall_forall in IH. apply list_elem_of_In in Hk, Ha.
    destruct (IH k Hk (Some b) Ha) as (par & s & Hocc & Hroot).
    exists par, s. split; [|done]. by eapply occurs_below.
Qed.

Lemma occurs_NoDup p t par s : NoDup (addrs t) -> occurs p t par s -> NoDup (addrs s).
Proof.
  intros Hnd Hocc. induction Hocc as [|p a nd kids k par s Hk _ IH]; [done|].
  apply IH. cbn [addrs] in Hnd. apply NoDup_cons in Hnd as [_ Hnd].
  apply list_elem_of_split in Hk as (l1 & l2 & ->).
  rewrite flat_map_split in Hnd.
  apply NoDup_app in Hnd as (_ & _ & Hnd). by apply NoDup_app in Hnd as (Hnd & _).
Qed.

Lemma occurs_root p t par s :
  NoDup (addrs t) -> occurs p t par s -> root s = root t -> par = p /\ s = t.
Proof.
  intros Hnd Hocc Hroot. destruct t as [a nd kids].
  apply occurs_inv in Hocc as [?|(k & Hk & Hocc)]; [done|].
  exfalso. cbn [addrs root] in *. apply NoDup_cons in Hnd as [Hna _].
  apply Hna. rewrite <- Hroot.
  apply list_elem_of_In, in_flat_map. exists k.
  split; [by apply list_elem_of_In|].
  apply list_elem_of_In. eapply occurs_addrs; [exact Hocc|apply root_addrs].
Qed.

Lemma reachable_addrs h t b : repr h t -> reachable h (root t) b <-> b ∈ addrs t.
Proof.
  revert b. induction t as [a nd kids IH] using tree_rect_Forall. intros b Hrepr.
  apply repr_inv in Hrepr as (Hlook & Hkids & Hsub). cbn [root addrs].
  rewrite Forall_forall in IH.
  split.
  - intros Hreach. inversion Hreach as [|a' nd' c b' Hlook' Hc Hcb]; subst.
    + apply elem_of_cons. by left.
    + apply elem_of_cons. right. simplify_eq.
      rewrite Hkids in Hc. apply in_map_iff in Hc as (k & [= <-] & Hk).
      apply list_elem_of_In, in_flat_map. exists k. split; [done|].
      apply list_elem_of_In, IH; auto. by apply list_elem_of_In.
  - intros [->|Hb]%elem_of_cons; [constructor|].
    apply list_elem_of_In, in_flat_map in Hb as (k & Hk & Hb).
    eapply reachable_child; [exact Hlook| |].
    + rewrite Hkids. by apply (in_map (fun k => Some (root k))).
    + apply IH; auto; by apply list_elem_of_In.
Qed.

(** ** The walker invokes its callback along [events] *)

Lemma run_app {St} (f : VisitExprNodeFunc St) evs1 evs2 s :
  run f (evs1 ++ evs2) s = run f evs2 (run f evs1 s).
Proof. unfold run. apply fold_left_app. Qed.

Lemma run_record evs acc : run record evs acc = acc ++ evs.
Proof.
  revert acc. induction evs as [|e evs IH]; intros acc; simpl.
  - by rewrite app_nil_r.
  - unfold run in *. simpl. rewrite IH. unfold record.
    destruct e. by rewrite <- app_assoc.
Qed.

Lemma forRange_events {St} (f : VisitExprNodeFunc St) (body : ptr -> St -> outcome St)
    (p : ptr) (kids : list tree) :
  (forall k, In k kids -> forall s, body (Some (root k)) s = Ret (run f (events p k) s)) ->
  forall s,
    forRange body (map (fun k => Some (root k)) kids) s
    = Ret (run f (flat_map (events p) kids) s).
Proof.
  induction kids as [|k kids IH]; intros Hbody s; simpl; [reflexivity|].
  rewrite Hbody by (left; reflexivity). simpl.
  rewrite IH by (intros; apply Hbody; right; assumption).
  by rewrite run_app.
Qed.

Lemma forRange_ext {A St} (body1 body2 : A -> St -> outcome St) xs s :
  (forall x s, body1 x s = body2 x s) -> forRange body1 xs s = forRange body2 xs s.
Proof.
  intros Hext. revert s. induction xs as [|x xs IH]; intros s; [done|].
  cbn [forRange]. rewrite Hext. destruct (body2 x s); cbn [bind]; auto.
Qed.

Lemma visitExprNode_events {St} (f : VisitExprNodeFunc St) (h : heap) (fuel : nat) :
  forall t p s,
    repr h t -> height t <= fuel ->
    visitExprNode fuel h (Some (root t)) p f s = Ret (run f (events p t) s).
Proof.
  induction fuel as [|fuel IH]; intros [a nd kids] p s Hrepr Hfuel.
  - simpl in Hfuel. lia.
  - apply repr_inv in Hrepr as (Hlook & Hkids & Hsub).
    assert (Hrec : forall k, In k kids -> forall p' s',
               visitExprNode fuel h (Some (root k)) p' f s' = Ret (run f (events p' k) s')).
    { intros k Hk p' s'. apply IH; [by apply Hsub|].
      pose proof (height_kid a nd kids k Hk). lia. }
    cbn [visitExprNode root]. rewrite Hlook.
    destruct nd; cbn [children] in Hkids; kids_shape Hkids kids;
      cbn [map] in Hkids; simplify_eq.
    all: try (cbn [events flat_map bind]; rewrite ?app_nil_r;
      repeat (rewrite Hrec by (simpl; tauto); cbn [bind]);
      change (?x :: ?l) with ([x] ++ l) at 1; rewrite ?run_app; reflexivity).
    cbn [events bind].
    rewrite (forRange_events f _ (Some a) kids) by (intros; by apply Hrec).
    cbn [bind].
    change (?x :: ?l) with ([x] ++ l) at 1. rewrite !run_app. reflexivity.
Qed.

(** The same for a node given by its address. *)
Lemma visitExprNode_Node {St} (f : VisitExprNodeFunc St) h fuel a nd kids p s :
  repr h (Node a nd kids) -> height (Node a nd kids) <= fuel ->
  visitExprNode fuel h (Some a) p f s = Ret (run f (events p (Node a nd kids)) s).
Proof. apply (visitExprNode_events f h fuel (Node a nd kids)). Qed.

(** The walker does not read [parent] fields. *)
Lemma visitExprNode_ignores_parent_fields {St} (f : VisitExprNodeFunc St) (h h' : heap) :
  (forall a, without_parent <$> h' !! a = without_parent <$> h !! a) ->
  forall fuel n p s, visitExprNode fuel h' n p f s = visitExprNode fuel h n p f s.
Proof.
  intros Hsame. induction fuel as [|fuel IH]; intros n p s; [done|].
  cbn [visitExprNode]. destruct n as [a|]; [|done].
  specialize (Hsame a).
  destruct (h' !! a) as [nd'|], (h !! a) as [nd|]; cbn in Hsame; try done.
  destruct nd', nd; cbn in Hsame; try discriminate Hsame; simplify_eq;
    rewrite ?IH; try done;
    try (destruct (visitExprNode fuel h _ _ f _); cbn [bind]; by rewrite ?IH).
  f_equal. apply forRange_ext. intros; apply IH.
Qed.

(** ** Structure of the trace *)

Lemma events_unfold p a nd kids :
  events p (Node a nd kids)
  = Ev (Some a) p true
      :: flat_map (events (Some a)) (walk_order nd kids) ++ [Ev (Some a) p false].
Proof.
  destruct nd; try reflexivity.
  destruct kids as [|k1 [|k2 [|k3 kids]]]; try reflexivity.
  simpl. by rewrite app_nil_r.
Qed.

Lemma events_length p t : length (events p t) = 2 * size t.
Proof.
  revert p. induction t as [a nd kids IH] using tree_rect_Forall. intros p.
  rewrite events_unfold. cbn [length size]. rewrite length_app, length_flat_map.
  cbn [length].
  rewrite (list_sum_Permutation _ (map (fun k => length (events (Some a) k)) kids))
    by (apply Permutation_map, walk_order_Permutation).
  assert (Hsum : list_sum (map (fun k => length (events (Some a) k)) kids)
                 = 2 * list_sum (map size kids)).
  { induction IH as [|k kids Hk _ IHkids]; simpl; [reflexivity|].
    rewrite Hk, IHkids. lia. }
  rewrite Hsum. lia.
Qed.

Lemma entered_app l1 l2 : entered (l1 ++ l2) = entered l1 ++ entered l2.
Proof. unfold entered. by rewrite filter_app, map_app. Qed.

Lemma exited_app l1 l2 : exited (l1 ++ l2) = exited l1 ++ exited l2.
Proof. unfold exited. by rewrite filter_app, map_app. Qed.

Lemma entered_flat_map {A} (g : A -> list event) l :
  entered (flat_map g l) = flat_map (fun x => entered (g x)) l.
Proof.
  induction l as [|x l IH]; simpl; [reflexivity|]. by rewrite entered_app, IH.
Qed.

Lemma exited_flat_map {A} (g : A -> list event) l :
  exited (flat_map g l) = flat_map (fun x => exited (g x)) l.
Proof.
  induction l as [|x l IH]; simpl; [reflexivity|]. by rewrite exited_app, IH.
Qed.

Lemma entered_cons n p b l :
  entered (Ev n p b :: l) = if b then n :: entered l else entered l.
Proof.
  unfold entered. rewrite filter_cons. cbn [ev_entering].
  destruct b; case_decide; done.
Qed.

Lemma exited_cons n p b l :
  exited (Ev n p b :: l) = if b then exited l else n :: exited l.
Proof.
  unfold exited. rewrite filter_cons. cbn [ev_entering].
  destruct b; case_decide; done.
Qed.

Lemma entered_events p t : Permutation (entered (events p t)) (map Some (addrs t)).
Proof.
  revert p. induction t as [a nd kids IH] using tree_rect_Forall. intros p.
  rewrite events_unfold, entered_cons, entered_app, entered_cons, entered_flat_map.
  cbn [addrs map]. rewrite app_nil_r. constructor.
  rewrite map_flat_map.
  etransitivity; [apply Permutation_flat_map, walk_order_Permutation|].
  apply flat_map_Permutation_pointwise.
  eapply Forall_impl; [exact IH|]. intros k Hk. apply Hk.
Qed.

Lemma exited_events p t : Permutation (exited (events p t)) (map Some (addrs t)).
Proof.
  revert p. induction t as [a nd kids IH] using tree_rect_Forall. intros p.
  rewrite events_unfold, exited_cons, exited_app, exited_cons, exited_flat_map.
  cbn [addrs map]. rewrite <- Permutation_cons_append. constructor.
  rewrite map_flat_map.
  etransitivity; [apply Permutation_flat_map, walk_order_Permutation|].
  apply flat_map_Permutation_pointwise.
  eapply Forall_impl; [exact IH|]. intros k Hk. apply Hk.
Qed.

Lemma elem_of_entered e l : e ∈ l -> ev_entering e = true -> ev_node e ∈ entered l.
Proof.
  intros He Hb. unfold entered. change (map ev_node ?x) with (ev_node <$> x).
  apply list_elem_of_fmap_2, list_elem_of_filter. done.
Qed.

Lemma elem_of_exited e l : e ∈ l -> ev_entering e = false -> ev_node e ∈ exited l.
Proof.
  intros He Hb. unfold exited. change (map ev_node ?x) with (ev_node <$> x).
  apply list_elem_of_fmap_2, list_elem_of_filter. done.
Qed.

Lemma elem_of_events_addrs p t e : e ∈ events p t -> ev_node e ∈ map Some (addrs t).
Proof.
  intros He. destruct (ev_entering e) eqn:Hb.
  - rewrite <- (entered_events p t). by apply elem_of_entered.
  - rewrite <- (exited_events p t). by apply elem_of_exited.
Qed.

Lemma NoDup_entered p t : NoDup (addrs t) -> NoDup (entered (events p t)).
Proof. intros Hnd. rewrite entered_events. by apply NoDup_map_Some. Qed.

Lemma NoDup_exited p t : NoDup (addrs t) -> NoDup (exited (events p t)).
Proof. intros Hnd. rewrite exited_events. by apply NoDup_map_Some. Qed.

Lemma events_occurs p t par s :
  occurs p t par s -> exists pre post, events p t = pre ++ events par s ++ post.
Proof.
  induction 1 as [p t|p a nd kids k par s Hk _ (pre & post & IH)].
  - exists [], []. by rewrite app_nil_r.
  - apply (proj2 (walk_order_elem nd kids k)), list_elem_of_split in Hk
      as (l1 & l2 & Hsplit).
    rewrite events_unfold, Hsplit, flat_map_split, IH.
    exists (Ev (Some a) p true :: flat_map (events (Some a)) l1 ++ pre),
           (post ++ flat_map (events (Some a)) l2 ++ [Ev (Some a) p false]).
    cbn [app]. f_equal. by rewrite <- !app_assoc.
Qed.

Lemma occurs_event p t e :
  e ∈ events p t ->
  exists par s, occurs p t par s /\ ev_node e = Some (root s) /\ ev_parent e = par.
Proof.
  revert p. induction t as [a nd kids IH] using tree_rect_Forall. intros p.
  rewrite events_unfold. intros He.
  apply elem_of_cons in He as [->|He];
    [exists p, (Node a nd kids); split; [constructor|done]|].
  apply elem_of_app in He as [He|He].
  - apply list_elem_of_In, in_flat_map in He as (k & Hk & He).
    apply list_elem_of_In, (proj1 (walk_order_elem nd kids k)) in Hk.
    rewrite Forall_forall in IH.
    destruct (IH k Hk (Some a)) as (par & s & Hocc & Hn & Hp);
      [by apply list_elem_of_In|].
    exists par, s. split; [|done]. by eapply occurs_below.
  - apply list_elem_of_singleton in He as ->.
    exists p, (Node a nd kids); split; [constructor|done].
Qed.

Lemma events_outside p t par s pre post e :
  NoDup (addrs t) ->
  events p t = pre ++ events par s ++ post ->
  e ∈ pre ++ post ->
  ev_node e ∉ map Some (addrs s).
Proof.
  intros Hnd Hsplit He.
  destruct (ev_entering e) eqn:Hb.
  - pose proof (NoDup_entered p t Hnd) as Hnd'.
    rewrite Hsplit, !entered_app in Hnd'.
    rewrite <- (entered_events par s).
    eapply NoDup_app_middle; [exact Hnd'|].
    rewrite <- entered_app. by apply elem_of_entered.
  - pose proof (NoDup_exited p t Hnd) as Hnd'.
    rewrite Hsplit, !exited_app in Hnd'.
    rewrite <- (exited_events par s).
    eapply NoDup_app_middle; [exact Hnd'|].
    rewrite <- exited_app. by apply elem_of_exited.
Qed.

(** The callbacks of a subtree lie between its root's two callbacks, and
    the rest of the trace does not mention the subtree. *)
Lemma events_bracket p t par s :
  NoDup (addrs t) -> occurs p t par s ->
  exists pre mid post,
    events p t
    = pre ++ [Ev (Some (root s)) par true] ++ mid
          ++ [Ev (Some (root s)) par false] ++ post
    /\ Permutation (entered mid) (map Some (flat_map addrs (subtrees s)))
    /\ Permutation (exited mid) (map Some (flat_map addrs (subtrees s)))
    /\ (forall e, e ∈ mid -> ev_node e <> Some (root s))
    /\ (forall e, e ∈ pre ++ post -> ev_node e ∉ map Some (addrs s)).
Proof.
  intros Hnd Hocc.
  destruct (events_occurs _ _ _ _ Hocc) as (pre & post & Hsplit).
  pose proof (occurs_NoDup _ _ _ _ Hnd Hocc) as Hnds.
  pose proof (entered_events par s) as Hen.
  pose proof (exited_events par s) as Hex.
  destruct s as [a nd kids]. cbn [root subtrees].
  rewrite events_unfold in Hsplit, Hen, Hex.
  set (mid := flat_map (events (Some a)) (walk_order nd kids)) in *.
  exists pre, mid, post.
  rewrite entered_cons, entered_app, entered_cons, app_nil_r in Hen.
  rewrite exited_cons, exited_app, exited_cons in Hex.
  cbn [addrs map] in Hen, Hex.
  apply Permutation_cons_inv in Hen.
  rewrite <- Permutation_cons_append in Hex. apply Permutation_cons_inv in Hex.
  split; [rewrite Hsplit; cbn [app]; by rewrite <- app_assoc|].
  split; [done|]. split; [done|]. split.
  - intros e He Heq. cbn [addrs] in Hnds. apply NoDup_cons in Hnds as [Hna _].
    apply Hna. apply (list_elem_of_fmap_inj_2 Some). rewrite <- Heq.
    change (Some <$> ?l) with (map Some l).
    destruct (ev_entering e) eqn:Hb.
    + rewrite <- Hen. by apply elem_of_entered.
    + rewrite <- Hex. by apply elem_of_exited.
  - intros e He. eapply events_outside; [exact Hnd| |exact He].
    rewrite Hsplit, events_unfold. reflexivity.
Qed.

Lemma events_per_node p t a :
  NoDup (addrs t) -> a ∈ addrs t ->
  exists par,
    filter (fun e => ev_node e = Some a) (events p t)
    = [Ev (Some a) par true; Ev (Some a) par false].
Proof.
  intros Hnd Ha.
  destruct (addrs_occurs p t a Ha) as (par & s & Hocc & <-).
  destruct (events_bracket p t par s Hnd Hocc)
    as (pre & mid & post & -> & _ & _ & Hmid & Hout).
  exists par.
  assert (Hroot : Some (root s) ∈ map Some (addrs s)).
  { destruct s. cbn [root addrs map]. by left. }
  rewrite !filter_app.
  rewrite (filter_none _ pre), (filter_none _ mid), (filter_none _ post).
  - rewrite !filter_cons, !filter_nil. cbn [ev_node].
    repeat case_decide; done.
  - intros e He Heq. apply (Hout e); [apply elem_of_app; by right|by rewrite Heq].
  - exact Hmid.
  - intros e He Heq. apply (Hout e); [apply elem_of_app; by left|by rewrite Heq].
Qed.

Lemma events_both p t n q b : Ev n q b ∈ events p t -> Ev n q (negb b) ∈ events p t.
Proof.
  intros He. apply occurs_event in He as (par & s & Hocc & Hn & Hq).
  cbn [ev_node ev_parent] in Hn, Hq. subst n q.
  destruct (events_occurs _ _ _ _ Hocc) as (pre & post & ->).
  apply elem_of_app. right. apply elem_of_app. left.
  destruct s as [a nd kids]. rewrite events_unfold. cbn [root].
  destruct b; cbn [negb].
  - apply elem_of_cons. right. apply elem_of_app. right. by left.
  - by left.
Qed.

(** ** Token delegation *)

Lemma Token_of_own fuel h a nd tok :
  h !! a = Some nd -> own_token nd = Some tok ->
  Token_of (S fuel) h (Some a) = Ret tok.
Proof.
  intros Hlook Hown. cbn [Token_of deref]. rewrite Hlook. cbn [bind].
  destruct nd; cbn in Hown; by simplify_eq.
Qed.

Lemma Token_of_delegates fuel h a b :
  delegates h a b -> Token_of (S fuel) h (Some a) = Token_of fuel h (Some b).
Proof.
  intros Hd. cbn [Token_of deref].
  by destruct Hd
    as [? ? ? ? ->|? ? ? ->|? ? ? ? ->|? ? ? ? ? ->|? ? ? ? ? ->].
Qed.

Lemma Token_of_hops h k a b nd tok :
  hops h k a b -> h !! b = Some nd -> own_token nd = Some tok ->
  forall fuel, k < fuel -> Token_of fuel h (Some a) = Ret tok.
Proof.
  induction 1 as [a|k a b c Hd _ IH]; intros Hlook Hown fuel Hfuel;
    (destruct fuel as [|fuel]; [lia|]).
  - by eapply Token_of_own.
  - rewrite (Token_of_delegates fuel h a b Hd). apply IH; [done|done|lia].
Qed.

Lemma Token_of_tree h t :
  repr h t ->
  exists k b nd tok,
    k < height t /\ hops h k (root t) b /\ h !! b = Some nd
    /\ own_token nd = Some tok.
Proof.
  induction t as [a nd kids IH] using tree_rect_Forall. intros Hrepr.
  apply repr_inv in Hrepr as (Hlook & Hkids & Hsub).
  assert (Hown : forall tok, own_token nd = Some tok ->
            exists k b nd' tok',
              k < height (Node a nd kids) /\ hops h k a b /\ h !! b = Some nd'
              /\ own_token nd' = Some tok').
  { intros tok Hown. exists 0, a, nd, tok. repeat split; try done.
    - simpl. lia.
    - constructor. }
  assert (Hdel : forall c rest, kids = c :: rest -> delegates h a (root c) ->
            exists k b nd' tok',
              k < height (Node a nd kids) /\ hops h k a b /\ h !! b = Some nd'
              /\ own_token nd' = Some tok').
  { intros c rest -> Hd. apply Forall_cons in IH as [IHc _].
    destruct IHc as (k & b & nd' & tok' & Hk & Hhops & Hb & Hown');
      [apply Hsub; by left|].
    exists (S k), b, nd', tok'. repeat split; try done.
    - simpl in *. lia.
    - by eapply hops_S. }
  cbn [root].
  destruct nd; cbn [children] in Hkids; try (by eapply Hown);
    kids_shape Hkids kids; cbn [map] in Hkids; simplify_eq;
    (eapply Hdel; [reflexivity|]); econstructor; exact Hlook.
Qed.

Example Token_of_index_example :
  Token_of 3 ex_index_heap (Some 1%positive) = Ret (Some (mkToken "foo" 1 1))
  /\ Token_of 2 ex_index_heap (Some 1%positive) = OutOfFuel.
Proof. split; reflexivity. Qed.

(** ** Parent chains *)

Lemma ancestors_fun h a chain1 chain2 :
  ancestors h a chain1 -> ancestors h a chain2 -> chain1 = chain2.
Proof.
  intros H1. revert chain2.
  induction H1 as [a nd Hlook Hpar|a nd p chain Hlook Hpar _ IH];
    intros chain2 H2; inversion H2; simplify_eq; [done|].
  f_equal. by apply IH.
Qed.

Lemma ancestors_suffix h a pre q post :
  ancestors h a (pre ++ q :: post) -> ancestors h q post.
Proof.
  revert a. induction pre as [|x pre IH]; intros a Hanc;
    inversion Hanc; simplify_eq; [done|]. by eapply IH.
Qed.

Lemma ancestors_not_self h a chain : ancestors h a chain -> a ∉ chain.
Proof.
  intros Hanc Hin. apply list_elem_of_split in Hin as (pre & post & ->).
  pose proof (ancestors_suffix _ _ _ _ _ Hanc) as Hpost.
  pose proof (ancestors_fun _ _ _ _ Hanc Hpost) as Heq.
  apply (f_equal length) in Heq. rewrite length_app in Heq. cbn in Heq. lia.
Qed.

Lemma FindParent_first_match {T St} (predicate : ptr -> St -> T * bool * St) (zero : T)
    (h : heap) (a : addr) (chain : list addr) :
  ancestors h a chain ->
  forall fuel s,
    length chain < fuel ->
    FindParent fuel h (Some a) predicate zero s
    = Ret (first_match predicate zero chain s).
Proof.
  unfold FindParent, Parent.
  induction 1 as [a nd Hlook Hpar|a nd p chain Hlook Hpar _ IH]; intros fuel s Hfuel;
    (destruct fuel as [|fuel]; [cbn in Hfuel; lia|]);
    cbn [deref]; rewrite Hlook; cbn [bind]; rewrite Hpar; cbn [FindParent_loop].
  - reflexivity.
  - cbn [first_match]. destruct (predicate (Some p) s) as [[t ok] s'].
    destruct ok; [reflexivity|].
    apply IH. cbn in Hfuel. lia.
Qed.

Lemma first_match_logged_hit {T} (pred : ptr -> T * bool) (zero : T) pre q post t acc :
  (forall x, x ∈ pre -> (pred (Some x)).2 = false) ->
  pred (Some q) = (t, true) ->
  first_match (logged pred) zero (pre ++ q :: post) acc
  = (t, true, acc ++ map Some (pre ++ [q])).
Proof.
  revert acc. induction pre as [|x pre IH]; intros acc Hpre Hq.
  - cbn [app first_match logged map]. by rewrite Hq.
  - cbn [app first_match logged map].
    pose proof (Hpre x ltac:(by left)) as Hx.
    destruct (pred (Some x)) as [tx okx]. cbn in Hx. subst okx.
    rewrite IH; [|intros y Hy; apply Hpre; by right|done].
    by rewrite <- app_assoc.
Qed.

Lemma first_match_logged_miss {T} (pred : ptr -> T * bool) (zero : T) chain acc :
  (forall x, x ∈ chain -> (pred (Some x)).2 = false) ->
  first_match (logged pred) zero chain acc = (zero, false, acc ++ map Some chain).
Proof.
  revert acc. induction chain as [|x chain IH]; intros acc Hall.
  - cbn. by rewrite app_nil_r.
  - cbn [first_match logged map].
    pose proof (Hall x ltac:(by left)) as Hx.
    destruct (pred (Some x)) as [tx okx]. cbn in Hx. subst okx.
    rewrite IH; [|intros y Hy; apply Hall; by right].
    by rewrite <- app_assoc.
Qed.

(** * Theorems *)

(** C1. For a tree laid out in the store, [VisitExprNode] invokes the
    callback along [events None t], whatever the callback: that is
    [2 * size t] invocations, every node of the tree receives exactly two
    of them, first the entering then the leaving one, and all invocations
    for the nodes below it, and no others, lie between the two. *)
Theorem VisitExprNode_brackets_every_node (h : heap) (t : tree) :
  repr h t -> NoDup (addrs t) ->
  (forall (St : Type) (f : VisitExprNodeFunc St) (s : St) (fuel : nat),
      height t <= fuel ->
      VisitExprNode fuel h (Some (root t)) f s = Ret (run f (events None t) s))
  /\ length (events None t) = 2 * size t
  /\ size t = length (addrs t)
  /\ (forall a, a ∈ addrs t ->
        exists par,
          filter (fun e => ev_node e = Some a) (events None t)
          = [Ev (Some a) par true; Ev (Some a) par false])
  /\ (forall par s, occurs None t par s ->
        exists pre mid post,
          events None t
          = pre ++ [Ev (Some (root s)) par true] ++ mid
                ++ [Ev (Some (root s)) par false] ++ post
          /\ Permutation (entered mid) (map Some (flat_map addrs (subtrees s)))
          /\ Permutation (exited mid) (map Some (flat_map addrs (subtrees s)))
          /\ (forall e, e ∈ mid -> ev_node e <> Some (root s))
          /\ (forall e, e ∈ pre ++ post -> ev_node e ∉ map Some (addrs s))).
Proof.
  intros Hrepr Hnd. repeat split.
  - intros St f s fuel Hfuel. by apply visitExprNode_events.
  - apply events_length.
  - apply size_addrs.
  - intros a Ha. by apply events_per_node.
  - intros par s Hocc. by apply events_bracket.
Qed.

Lemma VisitExprNode_brackets_every_node_witness :
  repr ex_index_heap ex_index_tree /\ NoDup (addrs ex_index_tree)
  /\ VisitExprNode 3 ex_index_heap (Some 1%positive) record []
     = Ret (events None ex_index_tree)
  /\ length (events None ex_index_tree) = 10.
Proof.
  assert (Hrepr : repr ex_index_heap ex_index_tree)
    by repeat (econstructor; try reflexivity).
  assert (Hnd : NoDup (addrs ex_index_tree))
    by (apply (bool_decide_unpack _); by vm_compute).
  split; [exact Hrepr|]. split; [exact Hnd|].
  destruct (VisitExprNode_brackets_every_node ex_index_heap ex_index_tree Hrepr Hnd)
    as (Hrun & Hlen & _).
  split; [|exact Hlen]. apply (Hrun _ record [] 3). vm_compute. lia.
Defined.

(** C2. The walker takes the index of an index access before its operand:
    the trace of the node is its entering invocation, all invocations of the
    index subtree, all invocations of the operand subtree, its leaving
    invocation; so any invocation for a node of the index subtree comes at
    an earlier position than any invocation for a node of the operand
    subtree, and the index is entered before the operand.  On
    [foo.bar[baz.qux]] the nodes are entered in the order index access,
    [baz.qux], [baz], [foo.bar], [foo]. *)
Theorem visitExprNode_index_before_operand :
  (forall (h : heap) (a : addr) (operand index : tree) (par p : ptr),
      h !! a = Some (IndexAccessNode (Some (root operand)) (Some (root index)) par) ->
      repr h operand -> repr h index ->
      NoDup (a :: addrs operand ++ addrs index) ->
      exists tr ei eo,
        (forall (St : Type) (f : VisitExprNodeFunc St) (s : St) (fuel : nat),
            height operand < fuel -> height index < fuel ->
            visitExprNode fuel h (Some a) p f s = Ret (run f tr s))
        /\ tr = [Ev (Some a) p true]
                  ++ (Ev (Some (root index)) (Some a) true :: ei)
                  ++ (Ev (Some (root operand)) (Some a) true :: eo)
                  ++ [Ev (Some a) p false]
        /\ Ev (Some (root index)) (Some a) true :: ei = events (Some a) index
        /\ Ev (Some (root operand)) (Some a) true :: eo = events (Some a) operand
        /\ (forall i j x y,
              tr !! i = Some x -> tr !! j = Some y ->
              ev_node x ∈ map Some (addrs index) ->
              ev_node y ∈ map Some (addrs operand) ->
              i < j))
  /\ (exists tr,
        VisitExprNode 3 ex_index_heap (Some 1%positive) record [] = Ret tr
        /\ entered tr
           = [Some 1%positive; Some 4%positive; Some 5%positive;
              Some 2%positive; Some 3%positive]
        /\ ex_index_heap !! 1%positive
           = Some (IndexAccessNode (Some 2%positive) (Some 4%positive) None)
        /\ ex_index_heap !! 4%positive
           = Some (ObjectDerefNode (Some 5%positive) "qux" (Some 1%positive))
        /\ ex_index_heap !! 5%positive
           = Some (VariableNode "baz" (Some (mkToken "baz" 1 9)) (Some 4%positive))
        /\ ex_index_heap !! 2%positive
           = Some (ObjectDerefNode (Some 3%positive) "bar" (Some 1%positive))
        /\ ex_index_heap !! 3%positive
           = Some (VariableNode "foo" (Some (mkToken "foo" 1 1)) (Some 2%positive))).
Proof.
  split.
  - intros h a operand index par p Hlook Hop Hidx Hnd.
    set (nd := IndexAccessNode (Some (root operand)) (Some (root index)) par) in *.
    assert (Hrepr : repr h (Node a nd [operand; index])).
    { constructor; [done|done|]. by repeat constructor. }
    destruct (events (Some a) index) as [|e0 ei] eqn:Hei.
    { destruct index; discriminate Hei. }
    destruct (events (Some a) operand) as [|e1 eo] eqn:Heo.
    { destruct operand; discriminate Heo. }
    assert (He0 : e0 = Ev (Some (root index)) (Some a) true).
    { destruct index. cbn in Hei. by injection Hei as <- _. }
    assert (He1 : e1 = Ev (Some (root operand)) (Some a) true).
    { destruct operand. cbn in Heo. by injection Heo as <- _. }
    subst e0 e1.
    exists (events p (Node a nd [operand; index])), ei, eo.
    assert (Htr : events p (Node a nd [operand; index])
                  = [Ev (Some a) p true]
                      ++ (Ev (Some (root index)) (Some a) true :: ei)
                      ++ (Ev (Some (root operand)) (Some a) true :: eo)
                      ++ [Ev (Some a) p false]).
    { cbn [events nd]. rewrite Hei, Heo. cbn [app]. by rewrite <- app_assoc. }
    split; [|split; [exact Htr|split; [done|split; [done|]]]].
    + intros St f s fuel Hfo Hfi.
      apply (visitExprNode_events f h fuel (Node a nd [operand; index])); [done|].
      simpl. lia.
    + rewrite Htr, <- Hei, <- Heo. intros i j x y Hi Hj Hx Hy.
      apply NoDup_cons in Hnd as [Hna Hnd].
      apply NoDup_app in Hnd as (_ & Hdisj & _).
      apply (lookup_segments
               (fun e => ev_node e ∈ map Some (addrs index))
               (fun e => ev_node e ∈ map Some (addrs operand))
               _ _ _ _ i j x y Hi Hj Hx Hy).
      * intros z [Hz|[Hz|Hz]%elem_of_app]%elem_of_app Hin.
        -- apply list_elem_of_singleton in Hz as ->. cbn in Hin.
           apply (list_elem_of_fmap_inj_2 Some) in Hin.
           apply Hna, elem_of_app. by right.
        -- apply elem_of_events_addrs in Hz.
           change (map Some ?l) with (Some <$> l) in Hz, Hin.
           apply list_elem_of_fmap in Hz as (b & Hb & Hz). rewrite Hb in Hin.
           apply (list_elem_of_fmap_inj_2 Some) in Hin. by apply (Hdisj b).
        -- apply list_elem_of_singleton in Hz as ->. cbn in Hin.
           apply (list_elem_of_fmap_inj_2 Some) in Hin.
           apply Hna, elem_of_app. by right.
      * intros z [Hz|[Hz|Hz]%elem_of_app]%elem_of_app Hin.
        -- apply list_elem_of_singleton in Hz as ->. cbn in Hin.
           apply (list_elem_of_fmap_inj_2 Some) in Hin.
           apply Hna, elem_of_app. by left.
        -- apply elem_of_events_addrs in Hz.
           change (map Some ?l) with (Some <$> l) in Hz, Hin.
           apply list_elem_of_fmap in Hz as (b & Hb & Hz). rewrite Hb in Hin.
           apply (list_elem_of_fmap_inj_2 Some) in Hin. by apply (Hdisj b).
        -- apply list_elem_of_singleton in Hz as ->. cbn in Hin.
           apply (list_elem_of_fmap_inj_2 Some) in Hin.
           apply Hna, elem_of_app. by left.
  - eexists. split; [vm_compute; reflexivity|]. by vm_compute.
Qed.

Lemma visitExprNode_index_before_operand_witness :
  ex_index_heap !! 1%positive
  = Some (IndexAccessNode (Some (root ex_foo_bar)) (Some (root ex_baz_qux)) None)
  /\ repr ex_index_heap ex_foo_bar /\ repr ex_index_heap ex_baz_qux
  /\ NoDup (1%positive :: addrs ex_foo_bar ++ addrs ex_baz_qux)
  /\ exists tr,
       visitExprNode 3 ex_index_heap (Some 1%positive) None record [] = Ret tr
       /\ forall i j x y,
            tr !! i = Some x -> tr !! j = Some y ->
            ev_node x ∈ map Some (addrs ex_baz_qux) ->
            ev_node y ∈ map Some (addrs ex_foo_bar) ->
            i < j.
Proof.
  assert (Hlook : ex_index_heap !! 1%positive
                  = Some (IndexAccessNode (Some (root ex_foo_bar))
                            (Some (root ex_baz_qux)) None)) by reflexivity.
  assert (Hop : repr ex_index_heap ex_foo_bar)
    by repeat (econstructor; try reflexivity).
  assert (Hidx : repr ex_index_heap ex_baz_qux)
    by repeat (econstructor; try reflexivity).
  assert (Hnd : NoDup (1%positive :: addrs ex_foo_bar ++ addrs ex_baz_qux))
    by (apply (bool_decide_unpack _); by vm_compute).
  repeat (split; [assumption|]).
  destruct (proj1 visitExprNode_index_before_operand
              ex_index_heap 1%positive ex_foo_bar ex_baz_qux None None
              Hlook Hop Hidx Hnd)
    as (tr & ei & eo & Hrun & _ & _ & _ & Horder).
  exists tr. split; [|exact Horder].
  pose proof (Hrun _ record [] 3) as Hrec.
  rewrite run_record in Hrec. apply Hrec; vm_compute; lia.
Defined.

(** C3. [FindParent] on a node whose parent chain is [chain] (nearest
    first, ending in nil) applies the predicate along [chain] and stops at
    the first node on which it returns true: with a predicate that has no
    effects of its own, the nodes it is applied to are exactly the
    ancestors up to and including the first match, in that order, and the
    result is that match's payload with true; if no ancestor matches, all
    of [chain] and nothing else is inspected and the result is the zero
    value with false; with a nil parent the predicate is not called.  The
    node itself is not on its parent chain, so it is never inspected. *)
Theorem FindParent_nearest_match {T : Type} (zero : T) (h : heap) (a : addr)
    (chain : list addr) :
  ancestors h a chain ->
  (forall (St : Type) (predicate : ptr -> St -> T * bool * St) (s : St) (fuel : nat),
      length chain < fuel ->
      FindParent fuel h (Some a) predicate zero s
      = Ret (first_match predicate zero chain s))
  /\ (a ∉ chain)
  /\ (forall (pred : ptr -> T * bool) pre q post t fuel,
        chain = pre ++ q :: post ->
        (forall x, x ∈ pre -> (pred (Some x)).2 = false) ->
        pred (Some q) = (t, true) ->
        length chain < fuel ->
        FindParent fuel h (Some a) (logged pred) zero []
        = Ret (t, true, map Some (pre ++ [q])))
  /\ (forall (pred : ptr -> T * bool) fuel,
        (forall x, x ∈ chain -> (pred (Some x)).2 = false) ->
        length chain < fuel ->
        FindParent fuel h (Some a) (logged pred) zero []
        = Ret (zero, false, map Some chain))
  /\ (chain = [] ->
      forall (St : Type) (predicate : ptr -> St -> T * bool * St) (s : St) (fuel : nat),
        0 < fuel ->
        FindParent fuel h (Some a) predicate zero s = Ret (zero, false, s)).
Proof.
  intros Hanc. repeat split.
  - intros St predicate s fuel Hfuel. by apply FindParent_first_match.
  - by eapply ancestors_not_self.
  - intros pred pre q post t fuel Hchain Hpre Hq Hfuel.
    rewrite (FindParent_first_match _ zero h a chain Hanc) by done.
    rewrite Hchain. by rewrite (first_match_logged_hit pred zero pre q post t []).
  - intros pred fuel Hall Hfuel.
    rewrite (FindParent_first_match _ zero h a chain Hanc) by done.
    by rewrite first_match_logged_miss.
  - intros -> St predicate s fuel Hfuel.
    by rewrite (FindParent_first_match _ zero h a [] Hanc).
Qed.

Lemma FindParent_nearest_match_witness :
  ancestors ex_index_heap 3%positive [2%positive; 1%positive]
  /\ FindParent 3 ex_index_heap (Some 3%positive)
       (logged (ex_is_index ex_index_heap)) None []
     = Ret (Some 1%positive, true, [Some 2%positive; Some 1%positive])
  /\ FindParent 3 ex_index_heap (Some 3%positive)
       (logged (fun _ : ptr => (None : ptr, false))) None []
     = Ret (None, false, [Some 2%positive; Some 1%positive]).
Proof.
  assert (Hanc : ancestors ex_index_heap 3%positive [2%positive; 1%positive]).
  { eapply ancestors_up; [reflexivity|reflexivity|].
    eapply ancestors_up; [reflexivity|reflexivity|].
    eapply ancestors_root; reflexivity. }
  split; [exact Hanc|].
  destruct (FindParent_nearest_match (None : ptr) ex_index_heap 3%positive
              [2%positive; 1%positive] Hanc) as (_ & _ & Hhit & Hmiss & _).
  split.
  - apply (Hhit (ex_is_index ex_index_heap) [2%positive] 1%positive [] (Some 1%positive) 3).
    + reflexivity.
    + intros x Hx. apply list_elem_of_singleton in Hx as ->. reflexivity.
    + reflexivity.
    + simpl. lia.
  - apply (Hmiss (fun _ : ptr => (None : ptr, false)) 3).
    + reflexivity.
    + simpl. lia.
Defined.

(** C4. [Token()] of an object or array dereference is [Token()] of its
    receiver, of an index access that of its operand, of a comparison or
    logical operation that of its left side; the other eight kinds of node
    return their own [tok] field.  So on a tree laid out in the store the
    call follows fewer delegations than the tree is high, ends at a node
    with a [tok] field of its own and returns that field. *)
Theorem Token_delegates_to_own_token (h : heap) :
  (forall fuel a recv prop par,
      h !! a = Some (ObjectDerefNode recv prop par) ->
      Token_of (S fuel) h (Some a) = Token_of fuel h recv)
  /\ (forall fuel a recv par,
        h !! a = Some (ArrayDerefNode recv par) ->
        Token_of (S fuel) h (Some a) = Token_of fuel h recv)
  /\ (forall fuel a operand index par,
        h !! a = Some (IndexAccessNode operand index par) ->
        Token_of (S fuel) h (Some a) = Token_of fuel h operand)
  /\ (forall fuel a kind l r par,
        h !! a = Some (CompareOpNode kind l r par) ->
        Token_of (S fuel) h (Some a) = Token_of fuel h l)
  /\ (forall fuel a kind l r par,
        h !! a = Some (LogicalOpNode kind l r par) ->
        Token_of (S fuel) h (Some a) = Token_of fuel h l)
  /\ (forall fuel a nd tok par name b z x str operand callee args,
        h !! a = Some nd ->
        nd = VariableNode name tok par \/ nd = NullNode tok par
        \/ nd = BoolNode b tok par \/ nd = IntNode z tok par
        \/ nd = FloatNode x tok par \/ nd = StringNode str tok par
        \/ nd = NotOpNode operand tok par \/ nd = FuncCallNode callee args tok par ->
        own_token nd = Some tok /\ Token_of (S fuel) h (Some a) = Ret tok)
  /\ (forall t, repr h t ->
        exists k b nd tok,
          k < height t /\ hops h k (root t) b /\ h !! b = Some nd
          /\ own_token nd = Some tok
          /\ forall fuel, k < fuel -> Token_of fuel h (Some (root t)) = Ret tok).
Proof.
  repeat split.
  1-5: intros; cbn [Token_of deref]; by rewrite H.
  - by destruct H0 as [->|[->|[->|[->|[->|[->|[->| ->]]]]]]].
  - eapply Token_of_own; [exact H|].
    by destruct H0 as [->|[->|[->|[->|[->|[->|[->| ->]]]]]]].
  - intros t Hrepr.
    destruct (Token_of_tree h t Hrepr) as (k & b & nd & tok & Hk & Hhops & Hb & Hown).
    exists k, b, nd, tok. repeat split; try done.
    by eapply Token_of_hops.
Qed.

Lemma Token_delegates_to_own_token_witness :
  repr ex_index_heap ex_index_tree
  /\ exists k b nd tok,
       k < 3 /\ hops ex_index_heap k 1%positive b
       /\ ex_index_heap !! b = Some nd /\ own_token nd = Some tok
       /\ Token_of 3 ex_index_heap (Some 1%positive) = Ret tok.
Proof.
  assert (Hrepr : repr ex_index_heap ex_index_tree)
    by repeat (econstructor; try reflexivity).
  split; [exact Hrepr|].
  destruct (Token_delegates_to_own_token ex_index_heap)
    as (_ & _ & _ & _ & _ & _ & Htree).
  destruct (Htree ex_index_tree Hrepr)
    as (k & b & nd & tok & Hk & Hhops & Hb & Hown & Hfuel).
  exists k, b, nd, tok. repeat split; try assumption. by apply Hfuel.
Defined.

(** C5. The order in which the walker takes the children of each kind of
    node, as the trace of a visit of that node: a leaf gives its two
    invocations only; an object or array dereference and a [!] give the
    trace of the receiver (operand) between their two invocations; a
    comparison and a logical operation give the whole trace of the left
    side and then the whole trace of the right side; a call gives the
    traces of its arguments one after the other in the order of [Args]. *)
Theorem visitExprNode_child_order (h : heap) (a : addr) (p : ptr) :
  (forall nd, h !! a = Some nd -> is_leaf nd ->
     forall (St : Type) (f : VisitExprNodeFunc St) (s : St) (fuel : nat),
       visitExprNode (S fuel) h (Some a) p f s
       = Ret (run f [Ev (Some a) p true; Ev (Some a) p false] s))
  /\ (forall nd (c : tree) prop tok par,
        h !! a = Some nd ->
        nd = ObjectDerefNode (Some (root c)) prop par
        \/ nd = ArrayDerefNode (Some (root c)) par
        \/ nd = NotOpNode (Some (root c)) tok par ->
        repr h c ->
        forall (St : Type) (f : VisitExprNodeFunc St) (s : St) (fuel : nat),
          height c < fuel ->
          visitExprNode fuel h (Some a) p f s
          = Ret (run f ([Ev (Some a) p true] ++ events (Some a) c
                          ++ [Ev (Some a) p false]) s))
  /\ (forall nd (l r : tree) ckind lkind par,
        h !! a = Some nd ->
        nd = CompareOpNode ckind (Some (root l)) (Some (root r)) par
        \/ nd = LogicalOpNode lkind (Some (root l)) (Some (root r)) par ->
        repr h l -> repr h r ->
        forall (St : Type) (f : VisitExprNodeFunc St) (s : St) (fuel : nat),
          height l < fuel -> height r < fuel ->
          visitExprNode fuel h (Some a) p f s
          = Ret (run f ([Ev (Some a) p true] ++ events (Some a) l
                          ++ events (Some a) r ++ [Ev (Some a) p false]) s))
  /\ (forall (args : list tree) callee tok par,
        h !! a = Some (FuncCallNode callee (map (fun k => Some (root k)) args) tok par) ->
        Forall (repr h) args ->
        forall (St : Type) (f : VisitExprNodeFunc St) (s : St) (fuel : nat),
          Forall (fun k => height k < fuel) args -> 0 < fuel ->
          visitExprNode fuel h (Some a) p f s
          = Ret (run f ([Ev (Some a) p true] ++ flat_map (events (Some a)) args
                          ++ [Ev (Some a) p false]) s)).
Proof.
  repeat split.
  - intros nd Hlook Hleaf St f s fuel.
    assert (Hrepr : repr h (Node a nd [])).
    { constructor; [done| |constructor]. by destruct nd. }
    rewrite (visitExprNode_Node f h (S fuel) a nd [] p s Hrepr)
      by (simpl; lia).
    by destruct nd.
  - intros nd c prop tok par Hlook Hnd Hc St f s fuel Hfuel.
    assert (Hrepr : repr h (Node a nd [c])).
    { constructor; [done| |by repeat constructor].
      by destruct Hnd as [->|[->| ->]]. }
    rewrite (visitExprNode_Node f h fuel a nd [c] p s Hrepr)
      by (simpl; lia).
    destruct Hnd as [->|[->| ->]]; cbn [events flat_map app];
      by rewrite app_nil_r.
  - intros nd l r ckind lkind par Hlook Hnd Hl Hr St f s fuel Hfl Hfr.
    assert (Hrepr : repr h (Node a nd [l; r])).
    { constructor; [done| |by repeat constructor]. by destruct Hnd as [->| ->]. }
    rewrite (visitExprNode_Node f h fuel a nd [l; r] p s Hrepr)
      by (simpl; lia).
    destruct Hnd as [->| ->]; cbn [events flat_map app];
      by rewrite app_nil_r, <- app_assoc.
  - intros args callee tok par Hlook Hargs St f s fuel Hfuel Hpos.
    set (nd := FuncCallNode callee (map (fun k => Some (root k)) args) tok par) in *.
    assert (Hrepr : repr h (Node a nd args)) by by constructor.
    rewrite (visitExprNode_Node f h fuel a nd args p s Hrepr); [done|].
    cbn [height]. apply Nat.le_succ_l.
    clear -Hfuel Hpos. induction Hfuel as [|k args Hk _ IH]; simpl; lia.
Qed.

Lemma visitExprNode_child_order_witness :
  ex_call_heap !! 1%positive
  = Some (FuncCallNode "format" (map (fun k => Some (root k)) ex_call_args)
            (Some (mkToken "format" 1 1)) None)
  /\ Forall (repr ex_call_heap) ex_call_args
  /\ visitExprNode 2 ex_call_heap (Some 1%positive) None record []
     = Ret [Ev (Some 1%positive) None true;
            Ev (Some 2%positive) (Some 1%positive) true;
            Ev (Some 2%positive) (Some 1%positive) false;
            Ev (Some 3%positive) (Some 1%positive) true;
            Ev (Some 3%positive) (Some 1%positive) false;
            Ev (Some 4%positive) (Some 1%positive) true;
            Ev (Some 4%positive) (Some 1%positive) false;
            Ev (Some 1%positive) None false].
Proof.
  assert (Hlook : ex_call_heap !! 1%positive
                  = Some (FuncCallNode "format"
                            (map (fun k => Some (root k)) ex_call_args)
                            (Some (mkToken "format" 1 1)) None)) by reflexivity.
  assert (Hargs : Forall (repr ex_call_heap) ex_call_args)
    by repeat (econstructor; try reflexivity).
  split; [exact Hlook|]. split; [exact Hargs|].
  destruct (visitExprNode_child_order ex_call_heap 1%positive None)
    as (_ & _ & _ & Hcall).
  pose proof (Hcall ex_call_args _ _ _ Hlook Hargs _ record [] 2) as Hrec.
  rewrite run_record in Hrec. apply Hrec; [|lia].
  repeat constructor; simpl; lia.
Defined.

(** C6. [VisitExprNode] passes nil as the parent in both invocations for
    the root; every other invocation receives as parent a node of the tree
    that holds the visited node in one of its child fields, and the
    entering and the leaving invocation of a node receive the same parent.
    The [parent] fields of the structs are never read: stores that differ
    in them only give the same walk. *)
Theorem VisitExprNode_parent_argument (h : heap) (t : tree) :
  repr h t -> NoDup (addrs t) ->
  (forall (St : Type) (f : VisitExprNodeFunc St) (s : St) (fuel : nat),
      height t <= fuel ->
      VisitExprNode fuel h (Some (root t)) f s = Ret (run f (events None t) s))
  /\ (exists mid,
        events None t
        = Ev (Some (root t)) None true :: mid ++ [Ev (Some (root t)) None false])
  /\ (forall e, e ∈ events None t -> ev_node e = Some (root t) -> ev_parent e = None)
  /\ (forall e, e ∈ events None t -> ev_node e <> Some (root t) ->
        exists pa nd c,
          ev_parent e = Some pa /\ ev_node e = Some c /\ pa ∈ addrs t
          /\ h !! pa = Some nd /\ Some c ∈ children nd)
  /\ (forall n p b, Ev n p b ∈ events None t -> Ev n p (negb b) ∈ events None t)
  /\ (forall (h' : heap) (St : Type) (f : VisitExprNodeFunc St) (s : St) (fuel : nat),
        (forall a, without_parent <$> h' !! a = without_parent <$> h !! a) ->
        VisitExprNode fuel h' (Some (root t)) f s
        = VisitExprNode fuel h (Some (root t)) f s).
Proof.
  intros Hrepr Hnd. repeat split.
  - intros St f s fuel Hfuel. by apply visitExprNode_events.
  - destruct t as [a nd kids]. rewrite events_unfold. cbn [root]. eauto.
  - intros e He Hroot.
    apply occurs_event in He as (par & s & Hocc & Hn & <-).
    rewrite Hn in Hroot. injection Hroot as Hroot.
    by destruct (occurs_root _ _ _ _ Hnd Hocc Hroot) as [-> _].
  - intros e He Hroot.
    apply occurs_event in He as (par & s & Hocc & Hn & <-).
    destruct (occurs_parent h _ _ _ _ Hrepr Hocc)
      as [[_ ->]|(pa & nd & -> & Hpa & Hlook & Hc)]; [done|].
    exists pa, nd, (root s). done.
  - intros n p b. apply events_both.
  - intros h' St f s fuel Hsame. by apply visitExprNode_ignores_parent_fields.
Qed.

Lemma VisitExprNode_parent_argument_witness :
  repr ex_index_heap ex_index_tree /\ NoDup (addrs ex_index_tree)
  /\ (forall e, e ∈ events None ex_index_tree ->
        ev_node e = Some 1%positive -> ev_parent e = None)
  /\ (forall n p b, Ev n p b ∈ events None ex_index_tree ->
        Ev n p (negb b) ∈ events None ex_index_tree).
Proof.
  assert (Hrepr : repr ex_index_heap ex_index_tree)
    by repeat (econstructor; try reflexivity).
  assert (Hnd : NoDup (addrs ex_index_tree))
    by (apply (bool_decide_unpack _); by vm_compute).
  split; [exact Hrepr|]. split; [exact Hnd|].
  destruct (VisitExprNode_parent_argument ex_index_heap ex_index_tree Hrepr Hnd)
    as (_ & _ & Hroot & _ & Hboth & _).
  split; [exact Hroot|exact Hboth].
Defined.

(** C7. On a tree laid out in the store the walk returns, with any fuel
    from the height of the tree on, and its trace enters and leaves each
    node reachable from the root through child fields exactly once:
    nothing is entered or left twice, nothing reachable is left out and
    nothing else is visited. *)
Theorem VisitExprNode_terminates_once_each (h : heap) (t : tree) :
  repr h t -> NoDup (addrs t) ->
  exists tr,
    (forall fuel, height t <= fuel ->
        VisitExprNode fuel h (Some (root t)) record [] = Ret tr)
    /\ (forall (St : Type) (f : VisitExprNodeFunc St) (s : St) (fuel : nat),
          height t <= fuel ->
          VisitExprNode fuel h (Some (root t)) f s = Ret (run f tr s))
    /\ NoDup (entered tr) /\ NoDup (exited tr)
    /\ (forall n, n ∈ entered tr <-> exists b, n = Some b /\ reachable h (root t) b)
    /\ (forall n, n ∈ exited tr <-> exists b, n = Some b /\ reachable h (root t) b).
Proof.
  intros Hrepr Hnd. exists (events None t).
  assert (Hmem : forall n, n ∈ map Some (addrs t)
                           <-> exists b, n = Some b /\ reachable h (root t) b).
  { intros n. change (map Some ?l) with (Some <$> l). rewrite list_elem_of_fmap.
    split; intros (b & -> & Hb); exists b; split; try done;
      by apply (reachable_addrs h t b Hrepr). }
  repeat split.
  - intros fuel Hfuel. unfold VisitExprNode.
    rewrite (visitExprNode_events record h fuel t None []) by done.
    by rewrite run_record.
  - intros St f s fuel Hfuel. by apply visitExprNode_events.
  - by apply NoDup_entered.
  - by apply NoDup_exited.
  - rewrite entered_events. apply Hmem.
  - rewrite entered_events. apply Hmem.
  - rewrite exited_events. apply Hmem.
  - rewrite exited_events. apply Hmem.
Qed.

Lemma VisitExprNode_terminates_once_each_witness :
  repr ex_index_heap ex_index_tree /\ NoDup (addrs ex_index_tree)
  /\ exists tr,
       VisitExprNode 3 ex_index_heap (Some 1%positive) record [] = Ret tr
       /\ NoDup (entered tr).
Proof.
  assert (Hrepr : repr ex_index_heap ex_index_tree)
    by repeat (econstructor; try reflexivity).
  assert (Hnd : NoDup (addrs ex_index_tree))
    by (apply (bool_decide_unpack _); by vm_compute).
  split; [exact Hrepr|]. split; [exact Hnd|].
  destruct (VisitExprNode_terminates_once_each ex_index_heap ex_index_tree Hrepr Hnd)
    as (tr & Hrun & _ & Hentered & _).
  exists tr. split; [|exact Hentered]. apply Hrun. vm_compute. lia.
Defined.

(** C8. [IsEqualityOp] returns true exactly on the kinds of [==] and
    [!=], and false on every other value of the kind type, the kind of
    [<] among them. *)
Theorem IsEqualityOp_exactly_eq_noteq :
  (forall kind : CompareOpNodeKind,
      IsEqualityOp kind = true
      <-> kind = CompareOpNodeKindEq \/ kind = CompareOpNodeKindNotEq)
  /\ (forall kind : CompareOpNodeKind,
        kind <> CompareOpNodeKindEq -> kind <> CompareOpNodeKindNotEq ->
        IsEqualityOp kind = false)
  /\ IsEqualityOp CompareOpNodeKindEq = true
  /\ IsEqualityOp CompareOpNodeKindNotEq = true
  /\ IsEqualityOp CompareOpNodeKindLess = false.
Proof.
  unfold IsEqualityOp, CompareOpNodeKindEq, CompareOpNodeKindNotEq.
  repeat split; try reflexivity.
  - intros [H|H]%orb_true_iff; apply Z.eqb_eq in H; auto.
  - intros [->| ->]; reflexivity.
  - intros kind Heq Hne. apply orb_false_iff. split; by apply Z.eqb_neq.
Qed.

(** C9. [String()] renders each valid kind as its operator symbol. *)
Theorem String_renders_operator_symbols :
  CompareOpNodeKind_String CompareOpNodeKindLess = "<"
  /\ CompareOpNodeKind_String CompareOpNodeKindLessEq = "<="
  /\ CompareOpNodeKind_String CompareOpNodeKindGreater = ">"
  /\ CompareOpNodeKind_String CompareOpNodeKindGreaterEq = ">="
  /\ CompareOpNodeKind_String CompareOpNodeKindEq = "=="
  /\ CompareOpNodeKind_String CompareOpNodeKindNotEq = "!="
  /\ LogicalOpNodeKind_String LogicalOpNodeKindAnd = "&&"
  /\ LogicalOpNodeKind_String LogicalOpNodeKindOr = "||".
Proof. repeat split; reflexivity. Qed.

(** C10. Both [String()] methods return on every value of their integer
    kind type: outside the six comparison kinds the comparison one returns
    the empty string, outside the two logical kinds the logical one returns
    [INVALID LOGICAL OPERATOR]; the two invalid kinds are rendered
    differently. *)
Theorem String_of_invalid_kinds :
  (forall kind : CompareOpNodeKind,
      ~ (1 <= kind <= 6)%Z -> CompareOpNodeKind_String kind = "")
  /\ CompareOpNodeKind_String CompareOpNodeKindInvalid = ""
  /\ (forall k : LogicalOpNodeKind,
        ~ (1 <= k <= 2)%Z ->
        LogicalOpNodeKind_String k = "INVALID LOGICAL OPERATOR")
  /\ LogicalOpNodeKind_String LogicalOpNodeKindInvalid = "INVALID LOGICAL OPERATOR"
  /\ (forall kind : CompareOpNodeKind,
        (1 <= kind <= 6)%Z <->
        kind = CompareOpNodeKindLess \/ kind = CompareOpNodeKindLessEq
        \/ kind = CompareOpNodeKindGreater \/ kind = CompareOpNodeKindGreaterEq
        \/ kind = CompareOpNodeKindEq \/ kind = CompareOpNodeKindNotEq)
  /\ (forall k : LogicalOpNodeKind,
        (1 <= k <= 2)%Z <-> k = LogicalOpNodeKindAnd \/ k = LogicalOpNodeKindOr)
  /\ CompareOpNodeKind_String CompareOpNodeKindInvalid
     <> LogicalOpNodeKind_String LogicalOpNodeKindInvalid.
Proof.
  unfold CompareOpNodeKind_String, LogicalOpNodeKind_String,
    CompareOpNodeKindInvalid, CompareOpNodeKindLess, CompareOpNodeKindLessEq,
    CompareOpNodeKindGreater, CompareOpNodeKindGreaterEq, CompareOpNodeKindEq,
    CompareOpNodeKindNotEq, LogicalOpNodeKindInvalid, LogicalOpNodeKindAnd,
    LogicalOpNodeKindOr, CompareOpNodeKind, LogicalOpNodeKind.
  repeat split; try reflexivity; try lia; try discriminate.
  - intros kind Hout.
    repeat match goal with
           | |- context [(?x =? ?y)%Z] => destruct (Z.eqb_spec x y); [lia|]
           end.
    reflexivity.
  - intros k Hout.
    repeat match goal with
           | |- context [(?x =? ?y)%Z] => destruct (Z.eqb_spec x y); [lia|]
           end.
    reflexivity.
Qed.

(** X1. A nil node (the nil root, or a child field left nil) is not
    dereferenced: the walker invokes the callback on it twice, entering and
    leaving, and returns.  A dereference with a nil receiver so gives four
    invocations for its single node. *)
Theorem visitExprNode_nil (h : heap) (p : ptr) :
  (forall (St : Type) (f : VisitExprNodeFunc St) (s : St) (fuel : nat),
      visitExprNode (S fuel) h None p f s = Ret (f None p false (f None p true s)))
  /\ (forall a prop par fuel,
        h !! a = Some (ObjectDerefNode None prop par) ->
        visitExprNode (S (S fuel)) h (Some a) p record []
        = Ret [Ev (Some a) p true; Ev None (Some a) true;
               Ev None (Some a) false; Ev (Some a) p false]).
Proof.
  split; [reflexivity|].
  intros a prop par fuel Hlook. cbn [visitExprNode]. by rewrite Hlook.
Qed.

Lemma visitExprNode_nil_witness :
  ex_nil_heap !! 1%positive = Some (ObjectDerefNode None "bar" None)
  /\ visitExprNode 2 ex_nil_heap (Some 1%positive) None record []
     = Ret [Ev (Some 1%positive) None true; Ev None (Some 1%positive) true;
            Ev None (Some 1%positive) false; Ev (Some 1%positive) None false].
Proof.
  split; [reflexivity|].
  apply (proj2 (visitExprNode_nil ex_nil_heap None) 1%positive "bar" None 0).
  reflexivity.
Defined.


(** * Further properties *)

(** ** The walk on any store *)

Lemma forRange_some_trace {A} (body : forall St, VisitExprNodeFunc St -> A -> St -> outcome St)
    (xs : list A) :
  (forall x, exists o : outcome (list event),
      forall St (f : VisitExprNodeFunc St) s,
        body St f x s = outcome_map (fun evs => run f evs s) o) ->
  exists o : outcome (list event),
    forall St (f : VisitExprNodeFunc St) s,
      forRange (body St f) xs s = outcome_map (fun evs => run f evs s) o.
Proof.
  intros Hbody. induction xs as [|x xs (orest & IH)].
  - exists (Ret []). done.
  - destruct (Hbody x) as (ox & Hx).
    exists (bind ox (fun e1 => bind orest (fun e2 => Ret (e1 ++ e2)))).
    intros St f s. cbn [forRange]. rewrite Hx.
    destruct ox as [e1| |]; cbn [outcome_map bind]; [|done..]. rewrite IH.
    destruct orest as [e2| |]; cbn [outcome_map bind]; [|done..]. by rewrite run_app.
Qed.

Lemma visitExprNode_some_trace (h : heap) (fuel : nat) :
  forall n p, exists o : outcome (list event),
    forall St (f : VisitExprNodeFunc St) s,
      visitExprNode fuel h n p f s = outcome_map (fun evs => run f evs s) o.
Proof.
  induction fuel as [|fuel IH]; intros n p; [by exists OutOfFuel|].
  assert (Hwrap : forall inner : outcome (list event),
    exists o : outcome (list event),
      forall St (f : VisitExprNodeFunc St) s,
        (let* s' := outcome_map (fun evs => run f evs (f n p true s)) inner in
         Ret (f n p false s'))
        = outcome_map (fun evs => run f evs s) o).
  { intros inner.
    exists (outcome_map (fun evs => [Ev n p true] ++ evs ++ [Ev n p false]) inner).
    intros St f s. destruct inner as [evs| |]; cbn [outcome_map bind]; [|done..].
    rewrite !run_app. reflexivity. }
  assert (Hseq : forall o1 o2 : outcome (list event),
    exists o : outcome (list event),
      forall St (f : VisitExprNodeFunc St) s,
        (let* s' := outcome_map (fun evs => run f evs s) o1 in
         outcome_map (fun evs => run f evs s') o2)
        = outcome_map (fun evs => run f evs s) o).
  { intros o1 o2. exists (bind o1 (fun e1 => bind o2 (fun e2 => Ret (e1 ++ e2)))).
    intros St f s. destruct o1 as [e1| |]; cbn [outcome_map bind]; [|done..].
    destruct o2 as [e2| |]; cbn [outcome_map bind]; [|done..]. by rewrite run_app. }
  cbn [visitExprNode].
  destruct n as [a|].
  2:{ destruct (Hwrap (Ret [])) as (o & Ho). exists o. intros St f s. by rewrite <- Ho. }
  destruct (h !! a) as [nd|].
  2:{ destruct (Hwrap Panic) as (o & Ho). exists o. intros St f s. by rewrite <- Ho. }
  assert (Hone : forall c, exists o : outcome (list event),
    forall St (f : VisitExprNodeFunc St) s,
      (let* s' := visitExprNode fuel h c (Some a) f (f (Some a) p true s) in
       Ret (f (Some a) p false s'))
      = outcome_map (fun evs => run f evs s) o).
  { intros c. destruct (IH c (Some a)) as (oc & Hc).
    destruct (Hwrap oc) as (o & Ho). exists o. intros St f s.
    by rewrite Hc, <- Ho. }
  assert (Htwo : forall c1 c2, exists o : outcome (list event),
    forall St (f : VisitExprNodeFunc St) s,
      (let* s' := (let* s1 := visitExprNode fuel h c1 (Some a) f (f (Some a) p true s) in
                   visitExprNode fuel h c2 (Some a) f s1) in
       Ret (f (Some a) p false s'))
      = outcome_map (fun evs => run f evs s) o).
  { intros c1 c2. destruct (IH c1 (Some a)) as (o1 & H1).
    destruct (IH c2 (Some a)) as (o2 & H2).
    destruct (Hseq o1 o2) as (o12 & H12). destruct (Hwrap o12) as (o & Ho).
    exists o. intros St f s. rewrite <- Ho, <- H12, H1. f_equal.
    destruct o1; cbn [outcome_map bind]; [|done..]. apply H2. }
  destruct nd; try apply Hone; try apply Htwo;
    try (destruct (Hwrap (Ret [])) as (o & Ho); exists o; intros St f s;
         by rewrite <- Ho).
  destruct (forRange_some_trace
              (fun St f arg s => visitExprNode fuel h arg (Some a) f s) Args)
    as (oargs & Hargs); [intros x; apply IH|].
  destruct (Hwrap oargs) as (o & Ho). exists o. intros St f s.
  by rewrite <- Ho, Hargs.
Qed.

Lemma outcome_map_id {A} (g : A -> A) (o : outcome A) :
  (forall a, g a = a) -> outcome_map g o = o.
Proof. intros Hg. destruct o; cbn; by rewrite ?Hg. Qed.

(** X3. The callback cannot steer the walk or cut it short: on any store,
    whether the walk returns, panics or runs on is the same for every
    callback and state, and when it returns the callback has been invoked
    exactly along the trace that the logging callback records. *)
Theorem visitExprNode_callback_cannot_steer {St : Type} (f : VisitExprNodeFunc St)
    (fuel : nat) (h : heap) (n p : ptr) (s : St) :
  visitExprNode fuel h n p f s
  = outcome_map (fun evs => run f evs s) (trace fuel h n p).
Proof.
  destruct (visitExprNode_some_trace h fuel n p) as (o & Ho).
  unfold trace. rewrite (Ho _ record []), Ho.
  f_equal. symmetry. apply outcome_map_id. intros evs. by rewrite run_record.
Qed.

Lemma returns_trace {St} (f : VisitExprNodeFunc St) fuel h n p s r :
  visitExprNode fuel h n p f s = Ret r -> exists evs, trace fuel h n p = Ret evs.
Proof.
  rewrite visitExprNode_callback_cannot_steer.
  destruct (trace fuel h n p) as [evs| |]; [eauto|done..].
Qed.

Lemma bind_Ret {A B} (m : outcome A) (k : A -> outcome B) b :
  bind m k = Ret b -> exists a, m = Ret a /\ k a = Ret b.
Proof. destruct m; cbn; [eauto|done..]. Qed.

Lemma forRange_Ret_each {A St} (body : A -> St -> outcome St) xs s r x :
  forRange body xs s = Ret r -> In x xs -> exists s' r', body x s' = Ret r'.
Proof.
  revert s. induction xs as [|y xs IH]; intros s Hrun Hin; [done|].
  cbn [forRange] in Hrun. apply bind_Ret in Hrun as (s1 & Hy & Hrest).
  destruct Hin as [->|Hin]; [eauto|]. by eapply IH.
Qed.

Lemma trace_child fuel h a p evs nd c :
  trace (S fuel) h (Some a) p = Ret evs ->
  h !! a = Some nd -> In (Some c) (children nd) ->
  exists evs', trace fuel h (Some c) (Some a) = Ret evs'.
Proof.
  unfold trace at 1. cbn [visitExprNode]. intros Hrun Hlook Hc. rewrite Hlook in Hrun.
  apply bind_Ret in Hrun as (s1 & Hrun & _).
  destruct nd; cbn [children] in Hc; try done.
  - destruct Hc as [->|[]]. by eapply returns_trace.
  - destruct Hc as [->|[]]. by eapply returns_trace.
  - apply bind_Ret in Hrun as (s0 & Hidx & Hop).
    destruct Hc as [->|[->|[]]]; by eapply returns_trace.
  - destruct Hc as [->|[]]. by eapply returns_trace.
  - apply bind_Ret in Hrun as (s0 & Hl & Hr).
    destruct Hc as [->|[->|[]]]; by eapply returns_trace.
  - apply bind_Ret in Hrun as (s0 & Hl & Hr).
    destruct Hc as [->|[->|[]]]; by eapply returns_trace.
  - destruct (forRange_Ret_each _ _ _ _ _ Hrun Hc) as (s' & r' & Hbody).
    by eapply returns_trace.
Qed.

Lemma trace_allocated fuel h a p evs :
  trace fuel h (Some a) p = Ret evs -> is_Some (h !! a).
Proof.
  destruct fuel as [|fuel]; [done|]. unfold trace. cbn [visitExprNode].
  destruct (h !! a); [eauto|done].
Qed.

Lemma trace_reachable h a b :
  reachable h a b ->
  forall fuel p evs,
    trace fuel h (Some a) p = Ret evs ->
    exists fuel' p' evs', fuel' <= fuel /\ trace fuel' h (Some b) p' = Ret evs'.
Proof.
  induction 1 as [a|a nd c b Hlook Hc _ IH]; intros fuel p evs Hrun; [eauto|].
  destruct fuel as [|fuel]; [done|].
  destruct (trace_child _ _ _ _ _ _ _ Hrun Hlook Hc) as (evs1 & Hc1).
  destruct (IH _ _ _ Hc1) as (fuel' & p' & evs' & Hle & Hb).
  exists fuel', p', evs'. split; [lia|done].
Qed.

Lemma trace_descends h a b :
  descends h a b ->
  forall fuel p evs,
    trace fuel h (Some a) p = Ret evs ->
    exists fuel' p' evs', fuel' < fuel /\ trace fuel' h (Some b) p' = Ret evs'.
Proof.
  intros [a' nd c b' Hlook Hc Hreach] fuel p evs Hrun.
  destruct fuel as [|fuel]; [done|].
  destruct (trace_child _ _ _ _ _ _ _ Hrun Hlook Hc) as (evs1 & Hc1).
  destruct (trace_reachable _ _ _ Hreach _ _ _ Hc1) as (fuel' & p' & evs' & Hle & Hb).
  exists fuel', p', evs'. split; [lia|done].
Qed.

Lemma trace_cycle h b : descends h b b -> forall fuel p evs, trace fuel h (Some b) p <> Ret evs.
Proof.
  intros Hcycle fuel. induction fuel as [fuel IH] using lt_wf_ind. intros p evs Hrun.
  destruct (trace_descends _ _ _ Hcycle _ _ _ Hrun) as (fuel' & p' & evs' & Hlt & Hb).
  by apply (IH fuel' Hlt p' evs').
Qed.

(** X4. The walker has no guard against cycles: when the node it starts
    from reaches, through child fields, a node that lies on a cycle of
    child fields, the walk never returns, whatever the callback and however
    long it is left to run.  When it does return, every node reachable
    from the start is allocated. *)
Theorem visitExprNode_never_returns_on_cycle (h : heap) (a b : addr) :
  reachable h a b ->
  (descends h b b ->
   forall (St : Type) (f : VisitExprNodeFunc St) (fuel : nat) (p : ptr) (s r : St),
     visitExprNode fuel h (Some a) p f s <> Ret r)
  /\ (forall (St : Type) (f : VisitExprNodeFunc St) (fuel : nat) (p : ptr) (s r : St),
        visitExprNode fuel h (Some a) p f s = Ret r ->
        is_Some (h !! b) /\ ~ descends h b b).
Proof.
  intros Hreach.
  assert (Hret : forall (St : Type) (f : VisitExprNodeFunc St) fuel p (s r : St),
             visitExprNode fuel h (Some a) p f s = Ret r ->
             exists fuel' p' evs', trace fuel' h (Some b) p' = Ret evs').
  { intros St f fuel p s r Hrun.
    apply returns_trace in Hrun as (evs & Hrun).
    destruct (trace_reachable _ _ _ Hreach _ _ _ Hrun) as (fuel' & p' & evs' & _ & Hb).
    eauto. }
  split.
  - intros Hcycle St f fuel p s r Hrun.
    destruct (Hret _ _ _ _ _ _ Hrun) as (fuel' & p' & evs' & Hb).
    by apply (trace_cycle h b Hcycle fuel' p' evs').
  - intros St f fuel p s r Hrun.
    destruct (Hret _ _ _ _ _ _ Hrun) as (fuel' & p' & evs' & Hb).
    split; [by eapply trace_allocated|].
    intros Hcycle. by apply (trace_cycle h b Hcycle fuel' p' evs').
Qed.

Lemma visitExprNode_never_returns_on_cycle_witness :
  reachable ex_loop_heap 1%positive 1%positive
  /\ descends ex_loop_heap 1%positive 1%positive
  /\ forall fuel, trace fuel ex_loop_heap (Some 1%positive) None <> Ret [].
Proof.
  assert (Hreach : reachable ex_loop_heap 1%positive 1%positive) by constructor.
  assert (Hcycle : descends ex_loop_heap 1%positive 1%positive).
  { eapply descends_child; [reflexivity|by left|constructor]. }
  split; [exact Hreach|]. split; [exact Hcycle|].
  intros fuel.
  apply (proj1 (visitExprNode_never_returns_on_cycle
                  ex_loop_heap 1%positive 1%positive Hreach) Hcycle).
Defined.

Lemma record_Ret fuel h c n acc r :
  visitExprNode fuel h c n record acc = Ret r ->
  exists es, trace fuel h c n = Ret es /\ r = acc ++ es.
Proof.
  rewrite visitExprNode_callback_cannot_steer.
  destruct (trace fuel h c n) as [es| |]; cbn [outcome_map]; [|done..].
  intros [= <-]. exists es. by rewrite run_record.
Qed.

Lemma forRange_record_Ret fuel h n args acc r :
  forRange (fun arg s => visitExprNode fuel h arg n record s) args acc = Ret r ->
  exists ess,
    Forall2 (fun c es => trace fuel h c n = Ret es) args ess /\ r = acc ++ concat ess.
Proof.
  revert acc. induction args as [|c args IH]; intros acc Hrun; cbn [forRange] in Hrun.
  - injection Hrun as <-. exists []. split; [constructor|]. by rewrite app_nil_r.
  - apply bind_Ret in Hrun as (s1 & Hc & Hrest).
    apply record_Ret in Hc as (es & Hes & ->).
    apply IH in Hrest as (ess & Hess & ->).
    exists (es :: ess). split; [by constructor|]. cbn [concat]. by rewrite app_assoc.
Qed.

(** A trace that is returned is the entering invocation, the traces of the
    child fields in some order, and the leaving invocation. *)
Lemma trace_S_inv fuel h n p evs :
  trace (S fuel) h n p = Ret evs ->
  exists cs ess,
    evs = Ev n p true :: concat ess ++ [Ev n p false]
    /\ Forall2 (fun c es => trace fuel h c n = Ret es) cs ess
    /\ match n with
       | None => cs = []
       | Some a => exists nd, h !! a = Some nd /\ Permutation cs (children nd)
       end.
Proof.
  unfold trace at 1. cbn [visitExprNode]. intros Hrun.
  apply bind_Ret in Hrun as (s1 & Hrun & [= <-]).
  destruct n as [a|].
  2:{ injection Hrun as <-. exists [], []. split; [done|]. split; [constructor|done]. }
  cbn beta iota.
  destruct (h !! a) as [nd|] eqn:Hlook; [|done].
  assert (Hleaf : children nd = [] -> Ret (record (Some a) p true []) = Ret s1 ->
            exists cs ess,
              record (Some a) p false s1
              = Ev (Some a) p true :: concat ess ++ [Ev (Some a) p false]
              /\ Forall2 (fun c es => trace fuel h c (Some a) = Ret es) cs ess
              /\ exists nd', Some nd = Some nd' /\ Permutation cs (children nd')).
  { intros Hnil [= <-]. exists [], []. split; [done|]. split; [constructor|].
    exists nd. by rewrite Hnil. }
  assert (Hone : forall c, children nd = [c] ->
            visitExprNode fuel h c (Some a) record (record (Some a) p true []) = Ret s1 ->
            exists cs ess,
              record (Some a) p false s1
              = Ev (Some a) p true :: concat ess ++ [Ev (Some a) p false]
              /\ Forall2 (fun c es => trace fuel h c (Some a) = Ret es) cs ess
              /\ exists nd', Some nd = Some nd' /\ Permutation cs (children nd')).
  { intros c Hch Hc. apply record_Ret in Hc as (es & Hes & ->).
    exists [c], [es]. split; [unfold record; cbn; by rewrite app_nil_r|].
    split; [by repeat constructor|]. exists nd. by rewrite Hch. }
  assert (Htwo : forall c1 c2, Permutation [c1; c2] (children nd) ->
            (let* s0 := visitExprNode fuel h c1 (Some a) record (record (Some a) p true []) in
             visitExprNode fuel h c2 (Some a) record s0) = Ret s1 ->
            exists cs ess,
              record (Some a) p false s1
              = Ev (Some a) p true :: concat ess ++ [Ev (Some a) p false]
              /\ Forall2 (fun c es => trace fuel h c (Some a) = Ret es) cs ess
              /\ exists nd', Some nd = Some nd' /\ Permutation cs (children nd')).
  { intros c1 c2 Hch Hc. apply bind_Ret in Hc as (s0 & H1 & H2).
    apply record_Ret in H1 as (e1 & He1 & ->).
    apply record_Ret in H2 as (e2 & He2 & ->).
    exists [c1; c2], [e1; e2].
    split; [unfold record; cbn; by rewrite app_nil_r, <- !app_assoc|].
    split; [by repeat constructor|]. by exists nd. }
  destruct nd; try (by apply Hleaf);
    try (eapply Hone; [reflexivity|exact Hrun]);
    try (eapply Htwo; cycle 1; [exact Hrun|];
         cbn [children]; (reflexivity || apply perm_swap)).
  apply forRange_record_Ret in Hrun as (ess & Hess & ->).
  exists Args, ess. split; [unfold record; by cbn|].
  split; [done|].
  by exists (FuncCallNode Callee Args tok parent).
Qed.

(** What holds of the trace of a nil node, and of a node's two invocations
    around the traces of its child fields whenever it holds of those,
    holds of every trace that is returned. *)
Lemma trace_shape (h : heap) (P : ptr -> ptr -> list event -> Prop) :
  (forall n p cs ess,
      match n with
      | None => cs = []
      | Some a => exists nd, h !! a = Some nd /\ Permutation cs (children nd)
      end ->
      Forall2 (fun c es => P c n es) cs ess ->
      P n p (Ev n p true :: concat ess ++ [Ev n p false])) ->
  forall fuel n p evs, trace fuel h n p = Ret evs -> P n p evs.
Proof.
  intros Hstep. induction fuel as [|fuel IH]; intros n p evs Hrun; [done|].
  apply trace_S_inv in Hrun as (cs & ess & -> & Hess & Hcs).
  apply (Hstep n p cs ess); [done|].
  eapply Forall2_impl; [exact Hess|]. intros c es. apply IH.
Qed.

Lemma nested_app e1 e2 stack stack' :
  nested e1 stack = Some stack' -> nested (e1 ++ e2) stack = nested e2 stack'.
Proof.
  revert stack. induction e1 as [|[n p b] e1 IH]; intros stack Hrun.
  - by injection Hrun as ->.
  - cbn [app nested] in *. destruct b.
    + destruct (decide (p = hd None stack)); [by apply IH|done].
    + destruct stack as [|m below]; [done|].
      destruct (decide (n = m /\ p = hd None below)); [by apply IH|done].
Qed.

(** X5. The invocations of a walk nest like brackets, on any store: a
    consumer that pushes the node on entering and pops on leaving always
    pops the node it is handed, never finds its stack empty, ends with the
    stack it started with, and at every invocation finds the parent
    argument on top of the stack below the node. *)
Theorem visitExprNode_trace_nested (fuel : nat) (h : heap) (n p : ptr)
    (evs : list event) :
  trace fuel h n p = Ret evs ->
  (forall stack, hd None stack = p -> nested evs stack = Some stack)
  /\ (forall (St : Type) (f : VisitExprNodeFunc St) (s : St),
        visitExprNode fuel h n p f s = Ret (run f evs s)).
Proof.
  intros Hrun. split.
  - revert fuel n p evs Hrun.
    apply (trace_shape h (fun n p evs =>
             forall stack, hd None stack = p -> nested evs stack = Some stack)).
    intros n p cs ess _ Hess stack Htop.
    cbn [nested]. rewrite decide_True by done.
    assert (Hkids : forall rest,
              nested (concat ess ++ rest) (n :: stack) = nested rest (n :: stack)).
    { intros rest. clear -Hess.
      induction Hess as [|c es cs ess Hes _ IH]; [done|].
      cbn [concat]. rewrite <- app_assoc.
      rewrite (nested_app es _ (n :: stack) (n :: stack)) by by apply Hes.
      apply IH. }
    rewrite Hkids. cbn [nested]. by rewrite decide_True.
  - intros St f s. rewrite visitExprNode_callback_cannot_steer, Hrun. done.
Qed.

Lemma visitExprNode_trace_nested_witness :
  trace 3 ex_index_heap (Some 1%positive) None = Ret (events None ex_index_tree)
  /\ nested (events None ex_index_tree) [] = Some [].
Proof.
  assert (Hrun : trace 3 ex_index_heap (Some 1%positive) None
                 = Ret (events None ex_index_tree)) by reflexivity.
  split; [exact Hrun|].
  apply (proj1 (visitExprNode_trace_nested 3 ex_index_heap (Some 1%positive) None
                  (events None ex_index_tree) Hrun) []).
  reflexivity.
Defined.

Example nested_rejects_crossing :
  nested [Ev (Some 1%positive) None true; Ev (Some 2%positive) (Some 1%positive) true;
          Ev (Some 1%positive) None false; Ev (Some 2%positive) (Some 1%positive) false] []
  = None.
Proof. reflexivity. Qed.

(** ** Parent links and the walk *)

Lemma wired_inv p a nd kids :
  wired p (Node a nd kids) -> Parent_of nd = p /\ forall k, k ∈ kids -> wired (Some a) k.
Proof.
  inversion 1 as [p' a' nd' kids' Hp Hkids]; subst. split; [done|].
  by apply Forall_forall.
Qed.


Lemma repr_lookup h t : repr h t -> exists nd kids, t = Node (root t) nd kids /\ h !! root t = Some nd.
Proof. destruct t as [a nd kids]. intros (Hlook & _)%repr_inv. by exists nd, kids. Qed.

Lemma chain_from_ancestors h p chain :
  chain_from h p chain ->
  forall a nd, h !! a = Some nd -> Parent_of nd = p -> ancestors h a chain.
Proof.
  induction 1 as [|q ndq rest Hq _ IH]; intros a nd Hlook Hp.
  - by eapply ancestors_root.
  - eapply ancestors_up; [exact Hlook|exact Hp|]. by eapply IH.
Qed.

Lemma ancestors_chain_from h a chain :
  ancestors h a chain ->
  exists nd, h !! a = Some nd /\ chain_from h (Parent_of nd) chain.
Proof.
  induction 1 as [a nd Hlook Hp|a nd p chain Hlook Hp _ (ndp & Hlookp & IH)];
    exists nd; (split; [done|]); rewrite Hp; [constructor|].
  by econstructor.
Qed.

Lemma wired_path_ancestors h t p up s chain :
  repr h t -> wired p t -> chain_from h p up -> path t s chain ->
  ancestors h (root s) (chain ++ up).
Proof.
  intros Hrepr Hw Hup Hpath. revert p up Hrepr Hw Hup.
  induction Hpath as [t|a nd kids k s chain Hk _ IH]; intros p up Hrepr Hw Hup.
  - destruct t as [a nd kids]. apply repr_inv in Hrepr as (Hlook & _).
    apply wired_inv in Hw as [Hp _]. by eapply chain_from_ancestors.
  - apply repr_inv in Hrepr as (Hlook & _ & Hsub).
    apply wired_inv in Hw as [Hp Hkids].
    rewrite <- app_assoc. cbn [app].
    apply (IH (Some a)); [by apply Hsub, list_elem_of_In|by apply Hkids|].
    econstructor; [exact Hlook|]. by rewrite Hp.
Qed.



(** ** Ancestor search on any store *)

Lemma FindParent_prefix_match {T St} (predicate : ptr -> St -> T * bool * St) (zero : T)
    (h : heap) (a : addr) (pre : list addr) (q : addr) :
  climbs h a pre q ->
  forall fuel s,
    (first_match predicate zero (pre ++ [q]) s).1.2 = true ->
    length pre < fuel ->
    FindParent fuel h (Some a) predicate zero s
    = Ret (first_match predicate zero (pre ++ [q]) s).
Proof.
  unfold FindParent, Parent.
  induction 1 as [a nd q Hlook Hpar|a nd x pre q Hlook Hpar _ IH]; intros fuel s Hhit Hfuel;
    (destruct fuel as [|fuel]; [cbn in Hfuel; lia|]);
    cbn [deref]; rewrite Hlook; cbn [bind]; rewrite Hpar;
    cbn [FindParent_loop app first_match] in *.
  - destruct (predicate (Some q) s) as [[t ok] s']. by destruct ok.
  - destruct (predicate (Some x) s) as [[t ok] s']. destruct ok; [done|].
    apply IH; [done|]. cbn in Hfuel. lia.
Qed.

(** X7. [FindParent] stops at the first match and reads no parent link
    above it: if the parent links from a node lead through [pre] to [q],
    the predicate rejects all of [pre] and accepts [q], then [FindParent]
    returns the payload for [q] after applying the predicate to [pre] and
    [q] only, whatever the store holds above [q], a cycle of parent links
    included. *)
Theorem FindParent_reads_nothing_above_match {T : Type} (zero : T) (h : heap)
    (a : addr) (pre : list addr) (q : addr) :
  climbs h a pre q ->
  forall (pred : ptr -> T * bool) (t : T) (fuel : nat),
    (forall x, x ∈ pre -> (pred (Some x)).2 = false) ->
    pred (Some q) = (t, true) ->
    length pre < fuel ->
    FindParent fuel h (Some a) (logged pred) zero []
    = Ret (t, true, map Some (pre ++ [q])).
Proof.
  intros Hclimb pred t fuel Hpre Hq Hfuel.
  pose proof (first_match_logged_hit pred zero pre q [] t [] Hpre Hq) as Hscan.
  rewrite (FindParent_prefix_match _ zero h a pre q Hclimb fuel []);
    [by rewrite Hscan|by rewrite Hscan|done].
Qed.

Lemma FindParent_reads_nothing_above_match_witness :
  climbs ex_parent_loop_heap 1%positive [] 1%positive
  /\ FindParent 1 ex_parent_loop_heap (Some 1%positive)
       (logged (fun n : ptr => (n, true))) None []
     = Ret (Some 1%positive, true, [Some 1%positive]).
Proof.
  assert (Hclimb : climbs ex_parent_loop_heap 1%positive [] 1%positive)
    by (eapply climbs_parent; reflexivity).
  split; [exact Hclimb|].
  apply (FindParent_reads_nothing_above_match (None : ptr) ex_parent_loop_heap
           1%positive [] 1%positive Hclimb (fun n : ptr => (n, true))
           (Some 1%positive) 1).
  - intros x Hx. by apply elem_of_nil in Hx.
  - reflexivity.
  - simpl. lia.
Defined.

Lemma FindParent_loop_no_match {T St} (predicate : ptr -> St -> T * bool * St) (zero : T)
    (h : heap) :
  (forall n s, (predicate n s).1.2 = false) ->
  forall fuel par s r,
    FindParent_loop fuel h par predicate zero s = Ret r ->
    exists chain,
      chain_from h par chain /\ length chain < fuel
      /\ r = first_match predicate zero chain s.
Proof.
  intros Hnever. induction fuel as [|fuel IH]; intros par s r Hrun; [done|].
  cbn [FindParent_loop] in Hrun. destruct par as [q|].
  2:{ injection Hrun as <-. exists []. split; [constructor|]. split; [cbn; lia|done]. }
  pose proof (Hnever (Some q) s) as Hq.
  destruct (predicate (Some q) s) as [[t ok] s'] eqn:Hpred. cbn in Hq. subst ok.
  apply bind_Ret in Hrun as (par' & Hpar & Hrun).
  unfold Parent in Hpar. cbn [deref] in Hpar.
  destruct (h !! q) as [nd|] eqn:Hlook; [|done]. injection Hpar as <-.
  apply IH in Hrun as (chain & Hchain & Hlen & ->).
  exists (q :: chain). split; [by econstructor|]. split; [cbn; lia|].
  cbn [first_match]. by rewrite Hpred.
Qed.

Lemma climbs_ancestors h a pre q chain :
  climbs h a pre q -> ancestors h a chain ->
  exists post, chain = pre ++ q :: post /\ ancestors h q post.
Proof.
  intros Hclimb. revert chain.
  induction Hclimb as [a nd q Hlook Hpar|a nd x pre q Hlook Hpar _ IH];
    intros chain Hanc; inversion Hanc; simplify_eq.
  - eauto.
  - destruct (IH _ ltac:(eassumption)) as (post & -> & Hpost). eauto.
Qed.

Lemma climbs_cycle_no_ancestors h a pre chain :
  climbs h a pre a -> ~ ancestors h a chain.
Proof.
  intros Hclimb Hanc.
  destruct (climbs_ancestors _ _ _ _ _ Hclimb Hanc) as (post & Heq & Hpost).
  pose proof (ancestors_fun _ _ _ _ Hanc Hpost) as Heq'. subst chain.
  apply (f_equal length) in Heq'. rewrite length_app in Heq'. cbn in Heq'. lia.
Qed.

(** X8. With a predicate that matches nothing, [FindParent] returns only
    when the parent links end in nil: it has then applied the predicate to
    every ancestor and returns the zero value with false.  It has no guard
    against a cycle of parent links: from a node whose parent links lead
    back to it, it never returns. *)
Theorem FindParent_without_match {T St : Type} (predicate : ptr -> St -> T * bool * St)
    (zero : T) (h : heap) :
  (forall n s, (predicate n s).1.2 = false) ->
  (forall fuel a s r,
      FindParent fuel h (Some a) predicate zero s = Ret r ->
      exists chain,
        ancestors h a chain /\ length chain < fuel
        /\ r = first_match predicate zero chain s /\ r.1 = (zero, false))
  /\ (forall a pre, climbs h a pre a ->
        forall fuel s r, FindParent fuel h (Some a) predicate zero s <> Ret r).
Proof.
  intros Hnever.
  assert (Hret : forall fuel a s r,
             FindParent fuel h (Some a) predicate zero s = Ret r ->
             exists chain,
               ancestors h a chain /\ length chain < fuel
               /\ r = first_match predicate zero chain s).
  { intros fuel a s r Hrun. unfold FindParent in Hrun.
    apply bind_Ret in Hrun as (par & Hpar & Hrun).
    unfold Parent in Hpar. cbn [deref] in Hpar.
    destruct (h !! a) as [nd|] eqn:Hlook; [|done]. injection Hpar as <-.
    apply (FindParent_loop_no_match _ _ _ Hnever) in Hrun
      as (chain & Hchain & Hlen & ->).
    exists chain. split; [by eapply chain_from_ancestors|done]. }
  assert (Hscan : forall chain s, (first_match predicate zero chain s).1 = (zero, false)).
  { induction chain as [|x chain IH]; intros s; [done|]. cbn [first_match].
    pose proof (Hnever (Some x) s) as Hx.
    destruct (predicate (Some x) s) as [[t ok] s']. cbn in Hx. subst ok. apply IH. }
  repeat split.
  - intros fuel a s r Hrun.
    destruct (Hret _ _ _ _ Hrun) as (chain & Hanc & Hlen & ->).
    exists chain. by rewrite Hscan.
  - intros a pre Hclimb fuel s r Hrun.
    destruct (Hret _ _ _ _ Hrun) as (chain & Hanc & _).
    by apply (climbs_cycle_no_ancestors h a pre chain).
Qed.

Lemma FindParent_without_match_witness :
  (forall (n : ptr) (s : list ptr),
      (logged (fun _ : ptr => (None : ptr, false)) n s).1.2 = false)
  /\ climbs ex_parent_loop_heap 1%positive [] 1%positive
  /\ forall fuel r,
       FindParent fuel ex_parent_loop_heap (Some 1%positive)
         (logged (fun _ : ptr => (None : ptr, false))) None []
       <> Ret r.
Proof.
  assert (Hnever : forall (n : ptr) (s : list ptr),
             (logged (fun _ : ptr => (None : ptr, false)) n s).1.2 = false)
    by reflexivity.
  assert (Hclimb : climbs ex_parent_loop_heap 1%positive [] 1%positive)
    by (eapply climbs_parent; reflexivity).
  split; [exact Hnever|]. split; [exact Hclimb|].
  intros fuel r.
  destruct (FindParent_without_match
              (logged (fun _ : ptr => (None : ptr, false))) None
              ex_parent_loop_heap Hnever) as (_ & Hcycle).
  by apply (Hcycle 1%positive [] Hclimb).
Defined.

(** ** [Token()] on any store *)

Lemma delegates_fun h a b c : delegates h a b -> delegates h a c -> b = c.
Proof. intros Hb Hc. destruct Hb; inversion Hc; by simplify_eq. Qed.

Lemma delegates_no_own h a b nd :
  delegates h a b -> h !! a = Some nd -> own_token nd = None.
Proof. intros Hd Hlook. destruct Hd; by simplify_eq. Qed.

Lemma hops_snoc h k a b c : hops h k a b -> delegates h b c -> hops h (S k) a c.
Proof.
  induction 1 as [a|k a a1 b Hd _ IH]; intros Hbc.
  - eapply hops_S; [exact Hbc|constructor].
  - eapply hops_S; [exact Hd|by apply IH].
Qed.

Lemma hops_cycle_no_own h k a b nd tok j :
  hops h k a b -> h !! b = Some nd -> own_token nd = Some tok ->
  hops h (S j) a a -> False.
Proof.
  intros Hk Hlook Hown. revert j.
  induction Hk as [a|k a a1 b Hd _ IH]; intros j Hcycle;
    inversion Hcycle as [|j' a' a1' a'' Hd' Hrest]; subst.
  - by rewrite (delegates_no_own _ _ _ _ Hd' Hlook) in Hown.
  - rewrite <- (delegates_fun _ _ _ _ Hd Hd') in Hrest.
    apply (IH Hlook j). by eapply hops_snoc.
Qed.

Lemma Token_of_Ret_hops h fuel :
  forall a tok,
    Token_of fuel h (Some a) = Ret tok ->
    exists k b nd,
      k < fuel /\ hops h k a b /\ h !! b = Some nd /\ own_token nd = Some tok.
Proof.
  induction fuel as [|fuel IH]; intros a tok Hrun; [done|].
  cbn [Token_of deref] in Hrun.
  destruct (h !! a) as [nd|] eqn:Hlook; [|done]. cbn [bind] in Hrun.
  assert (Hdel : forall c,
            Token_of fuel h c = Ret tok ->
            (forall c', c = Some c' -> delegates h a c') ->
            exists k b nd',
              k < S fuel /\ hops h k a b /\ h !! b = Some nd'
              /\ own_token nd' = Some tok).
  { intros c Hc Hd. destruct c as [c'|]; [|by destruct fuel].
    destruct (IH _ _ Hc) as (k & b & nd' & Hk & Hhops & Hb & Hown).
    exists (S k), b, nd'. split; [lia|]. split; [|done].
    eapply hops_S; [by apply Hd|done]. }
  destruct nd;
    try (injection Hrun as <-; exists 0, a; eexists;
         split; [lia|]; split; [constructor|]; by split);
    (apply (Hdel _ Hrun); intros c' ->; econstructor; exact Hlook).
Qed.

(** X9. On any store, [Token()] of a node returns [tok] exactly when the
    delegations from the node lead, in finitely many hops, to a node whose
    own [tok] field is [tok].  There is no guard against a cycle of
    delegations: from a node whose delegations lead back to it, the call
    never returns. *)
Theorem Token_of_returns_iff (h : heap) :
  (forall fuel a tok,
      Token_of fuel h (Some a) = Ret tok
      <-> exists k b nd,
            k < fuel /\ hops h k a b /\ h !! b = Some nd
            /\ own_token nd = Some tok)
  /\ (forall a j, hops h (S j) a a ->
        forall fuel tok, Token_of fuel h (Some a) <> Ret tok).
Proof.
  split.
  - intros fuel a tok. split; [apply Token_of_Ret_hops|].
    intros (k & b & nd & Hk & Hhops & Hb & Hown). by eapply Token_of_hops.
  - intros a j Hcycle fuel tok Hrun.
    apply Token_of_Ret_hops in Hrun as (k & b & nd & _ & Hhops & Hb & Hown).
    by eapply hops_cycle_no_own.
Qed.



(** ** Kinds and their symbols *)

(** X11. The rendering of a valid kind identifies it: distinct valid kinds
    have distinct symbols, no comparison symbol is a logical symbol, the
    empty string (for comparisons) and [INVALID LOGICAL OPERATOR] (for
    logical operations) are returned for the invalid kinds only, and
    [IsEqualityOp] holds exactly of the kinds rendered [==] and [!=]. *)
Theorem String_identifies_kind :
  (forall k1 k2 : CompareOpNodeKind,
      valid_compare k1 -> valid_compare k2 ->
      CompareOpNodeKind_String k1 = CompareOpNodeKind_String k2 -> k1 = k2)
  /\ (forall k1 k2 : LogicalOpNodeKind,
        valid_logical k1 -> valid_logical k2 ->
        LogicalOpNodeKind_String k1 = LogicalOpNodeKind_String k2 -> k1 = k2)
  /\ (forall (kc : CompareOpNodeKind) (kl : LogicalOpNodeKind),
        valid_compare kc -> valid_logical kl ->
        CompareOpNodeKind_String kc <> LogicalOpNodeKind_String kl)
  /\ (forall k : CompareOpNodeKind,
        CompareOpNodeKind_String k = "" <-> ~ valid_compare k)
  /\ (forall k : LogicalOpNodeKind,
        LogicalOpNodeKind_String k = "INVALID LOGICAL OPERATOR" <-> ~ valid_logical k)
  /\ (forall k : CompareOpNodeKind,
        IsEqualityOp k = true
        <-> CompareOpNodeKind_String k = "==" \/ CompareOpNodeKind_String k = "!=").
Proof.
  assert (Hc : forall k, valid_compare k ->
            (k = 1 \/ k = 2 \/ k = 3 \/ k = 4 \/ k = 5 \/ k = 6)%Z)
    by (unfold valid_compare; lia).
  assert (Hl : forall k, valid_logical k -> (k = 1 \/ k = 2)%Z)
    by (unfold valid_logical; lia).
  assert (Hcout : forall k, ~ valid_compare k -> CompareOpNodeKind_String k = "").
  { unfold valid_compare, CompareOpNodeKind_String, CompareOpNodeKindLess,
      CompareOpNodeKindLessEq, CompareOpNodeKindGreater, CompareOpNodeKindGreaterEq,
      CompareOpNodeKindEq, CompareOpNodeKindNotEq.
    intros k Hk.
    repeat match goal with
           | |- context [(?x =? ?y)%Z] => destruct (Z.eqb_spec x y); [lia|]
           end.
    reflexivity. }
  assert (Hlout : forall k, ~ valid_logical k ->
            LogicalOpNodeKind_String k = "INVALID LOGICAL OPERATOR").
  { unfold valid_logical, LogicalOpNodeKind_String, LogicalOpNodeKindAnd,
      LogicalOpNodeKindOr.
    intros k Hk.
    repeat match goal with
           | |- context [(?x =? ?y)%Z] => destruct (Z.eqb_spec x y); [lia|]
           end.
    reflexivity. }
  repeat split.
  - intros k1 k2 H1%Hc H2%Hc.
    destruct H1 as [->|[->|[->|[->|[->| ->]]]]];
      destruct H2 as [->|[->|[->|[->|[->| ->]]]]]; by vm_compute.
  - intros k1 k2 H1%Hl H2%Hl.
    destruct H1 as [->| ->]; destruct H2 as [->| ->]; by vm_compute.
  - intros kc kl H1%Hc H2%Hl.
    destruct H1 as [->|[->|[->|[->|[->| ->]]]]]; destruct H2 as [->| ->];
      by vm_compute.
  - intros Hempty Hvalid%Hc.
    by destruct Hvalid as [->|[->|[->|[->|[->| ->]]]]].
  - apply Hcout.
  - intros Hinv Hvalid%Hl. by destruct Hvalid as [->| ->].
  - apply Hlout.
  - intros Heq. unfold IsEqualityOp in Heq.
    apply orb_true_iff in Heq as [->%Z.eqb_eq| ->%Z.eqb_eq]; [by left|by right].
  - intros Hsym. destruct (decide (valid_compare k)) as [Hvalid%Hc|Hout].
    + destruct Hvalid as [->|[->|[->|[->|[->| ->]]]]];
        by destruct Hsym as [Hsym|Hsym].
    + rewrite (Hcout k Hout) in Hsym. by destruct Hsym.
Qed.

(** ** Shared nodes and recursion depth *)

Lemma filter_node_split (a : addr) (evs : list event) :
  length (filter (fun e => ev_node e = Some a) evs)
  = length (filter (fun n => n = Some a) (entered evs))
    + length (filter (fun n => n = Some a) (exited evs)).
Proof.
  induction evs as [|[n p b] evs IH]; [done|].
  rewrite filter_cons, entered_cons, exited_cons. cbn [ev_node].
  destruct b; cbn beta iota; rewrite ?filter_cons;
    destruct (decide (n = Some a));
    rewrite ?decide_True, ?decide_False by done; cbn [length];
    rewrite ?Nat.add_succ_r; cbn [Nat.add]; try f_equal; exact IH.
Qed.

Lemma filter_map_Some (a : addr) (l : list addr) :
  length (filter (fun n => n = Some a) (map Some l))
  = length (filter (fun x => x = a) l).
Proof.
  induction l as [|x l IH]; [done|]. cbn [map]. rewrite !filter_cons.
  destruct (decide (x = a)) as [->|Hne].
  - rewrite decide_True by done. cbn [length]. by rewrite IH.
  - rewrite decide_False by congruence. done.
Qed.

(** X12. The walker keeps no record of the nodes it has visited: a node
    that several child fields point to is walked once for each of them.
    On a store that unfolds into [t], with or without sharing, every
    address receives one entering and one leaving invocation per position
    at which it occurs in [t]. *)
Theorem visitExprNode_once_per_reference (h : heap) (t : tree) :
  repr h t ->
  (forall (St : Type) (f : VisitExprNodeFunc St) (s : St) (fuel : nat),
      height t <= fuel ->
      VisitExprNode fuel h (Some (root t)) f s = Ret (run f (events None t) s))
  /\ Permutation (entered (events None t)) (map Some (addrs t))
  /\ Permutation (exited (events None t)) (map Some (addrs t))
  /\ (forall a,
        length (filter (fun e => ev_node e = Some a) (events None t))
        = 2 * length (filter (fun x => x = a) (addrs t))).
Proof.
  intros Hrepr. repeat split.
  - intros St f s fuel Hfuel. by apply visitExprNode_events.
  - apply entered_events.
  - apply exited_events.
  - intros a. rewrite filter_node_split.
    rewrite (entered_events None t), (exited_events None t), filter_map_Some. lia.
Qed.

Lemma visitExprNode_once_per_reference_witness :
  repr ex_shared_heap ex_shared_tree
  /\ trace 2 ex_shared_heap (Some 1%positive) None
     = Ret [Ev (Some 1%positive) None true;
            Ev (Some 2%positive) (Some 1%positive) true;
            Ev (Some 2%positive) (Some 1%positive) false;
            Ev (Some 2%positive) (Some 1%positive) true;
            Ev (Some 2%positive) (Some 1%positive) false;
            Ev (Some 1%positive) None false]
  /\ length (filter (fun e => ev_node e = Some 2%positive) (events None ex_shared_tree))
     = 4.
Proof.
  assert (Hrepr : repr ex_shared_heap ex_shared_tree)
    by repeat (econstructor; try reflexivity).
  split; [exact Hrepr|]. split; [reflexivity|].
  destruct (visitExprNode_once_per_reference ex_shared_heap ex_shared_tree Hrepr)
    as (_ & _ & _ & Hcount).
  exact (Hcount 2%positive).
Defined.

Lemma forRange_tree_OutOfFuel {St} (body : ptr -> St -> outcome St) fuel kids :
  (forall k, In k kids -> height k <= fuel ->
     forall s, exists s', body (Some (root k)) s = Ret s') ->
  (forall k, In k kids -> fuel < height k ->
     forall s, body (Some (root k)) s = OutOfFuel) ->
  fuel < list_max (map height kids) ->
  forall s, forRange body (map (fun k => Some (root k)) kids) s = OutOfFuel.
Proof.
  induction kids as [|k kids IH]; intros Hret Hout Hdeep s; [cbn in Hdeep; lia|].
  cbn [map forRange]. destruct (decide (height k <= fuel)) as [Hle|Hgt].
  - destruct (Hret k ltac:(by left) Hle s) as (s' & ->). cbn [bind].
    apply IH.
    + intros k' Hk'. apply Hret. by right.
    + intros k' Hk'. apply Hout. by right.
    + cbn [map list_max] in Hdeep. simpl in Hdeep. lia.
  - rewrite (Hout k); [done|by left|lia].
Qed.

Lemma visitExprNode_shallow {St} (f : VisitExprNodeFunc St) (h : heap) (fuel : nat) :
  forall t p s,
    repr h t -> fuel < height t ->
    visitExprNode fuel h (Some (root t)) p f s = OutOfFuel.
Proof.
  induction fuel as [|fuel IH]; intros [a nd kids] p s Hrepr Hfuel; [done|].
  pose proof Hrepr as (Hlook & Hkids & Hsub)%repr_inv.
  assert (Hret : forall k, In k kids -> height k <= fuel -> forall p' s',
             visitExprNode fuel h (Some (root k)) p' f s'
             = Ret (run f (events p' k) s')).
  { intros k Hk Hle p' s'. apply visitExprNode_events; [by apply Hsub|done]. }
  assert (Hout : forall k, In k kids -> fuel < height k -> forall p' s',
             visitExprNode fuel h (Some (root k)) p' f s' = OutOfFuel).
  { intros k Hk Hgt p' s'. apply IH; [by apply Hsub|done]. }
  assert (Hdeep : fuel < list_max (map height kids)) by (cbn [height] in Hfuel; lia).
  cbn [visitExprNode root]. rewrite Hlook.
  destruct nd; cbn [children] in Hkids; kids_shape Hkids kids;
    cbn [map] in Hkids; simplify_eq; simpl in Hdeep; try lia.
  all: try (rewrite Hout by (simpl; auto; lia); reflexivity).
  all: try match goal with
       | |- context [visitExprNode _ _ (Some (root ?x)) _ _ _] =>
         destruct (decide (height x <= fuel));
         [rewrite (Hret x) by (simpl; auto); cbn [bind];
          rewrite Hout by (simpl; auto; lia); reflexivity
         |rewrite (Hout x) by (simpl; auto; lia); reflexivity]
       end.
  rewrite (forRange_tree_OutOfFuel
             (fun arg s => visitExprNode fuel h arg (Some a) f s) fuel kids); try done.
  - intros k Hk Hle s'. eexists. by apply Hret.
  - intros k Hk Hgt s'. by apply Hout.
Qed.

(** X13. On a tree the walker recurses exactly as deep as the tree is
    high: with room for that many nested calls it returns, with room for
    fewer it is still running when the room is used up. *)
Theorem visitExprNode_depth_is_height (h : heap) (t : tree) :
  repr h t ->
  forall (St : Type) (f : VisitExprNodeFunc St) (p : ptr) (s : St) (fuel : nat),
    (height t <= fuel ->
     visitExprNode fuel h (Some (root t)) p f s = Ret (run f (events p t) s))
    /\ (fuel < height t ->
        visitExprNode fuel h (Some (root t)) p f s = OutOfFuel).
Proof.
  intros Hrepr St f p s fuel. split.
  - by apply visitExprNode_events.
  - by apply visitExprNode_shallow.
Qed.

Lemma visitExprNode_depth_is_height_witness :
  repr ex_index_heap ex_index_tree
  /\ height ex_index_tree = 3
  /\ visitExprNode 2 ex_index_heap (Some 1%positive) None record [] = OutOfFuel
  /\ visitExprNode 3 ex_index_heap (Some 1%positive) None record []
     = Ret (events None ex_index_tree).
Proof.
  assert (Hrepr : repr ex_index_heap ex_index_tree)
    by repeat (econstructor; try reflexivity).
  split; [exact Hrepr|]. split; [reflexivity|].
  split.
  - apply (proj2 (visitExprNode_depth_is_height ex_index_heap ex_index_tree Hrepr
                    _ record None [] 2)).
    vm_compute. lia.
  - apply (proj1 (visitExprNode_depth_is_height ex_index_heap ex_index_tree Hrepr
                    _ record None [] 3)).
    vm_compute. lia.
Defined.

(** ** The stack of open nodes and the parent chain *)

Lemma nested_flat_map (g : tree -> list event) (l : list tree) (stack : list ptr) rest :
  (forall k, k ∈ l -> nested (g k) stack = Some stack) ->
  nested (flat_map g l ++ rest) stack = nested rest stack.
Proof.
  induction l as [|k l IH]; intros Hl; [done|].
  cbn [flat_map]. rewrite <- app_assoc.
  rewrite (nested_app (g k) _ stack stack) by (apply Hl; by left).
  apply IH. intros k' Hk'. apply Hl. by right.
Qed.

Lemma events_nested p t :
  forall stack, hd None stack = p -> nested (events p t) stack = Some stack.
Proof.
  revert p. induction t as [a nd kids IH] using tree_rect_Forall.
  intros p stack Htop. rewrite events_unfold. cbn [nested].
  rewrite decide_True by done.
  rewrite nested_flat_map.
  - cbn [nested]. by rewrite decide_True.
  - intros k Hk%walk_order_elem. rewrite Forall_forall in IH. by apply IH.
Qed.

Lemma path_events_stack t s chain :
  path t s chain ->
  forall p stack,
    hd None stack = p ->
    exists pre post,
      events p t = pre ++ events (hd None (map Some chain ++ stack)) s ++ post
      /\ nested pre stack = Some (map Some chain ++ stack).
Proof.
  induction 1 as [t|a nd kids k s chain Hk _ IH]; intros p stack Htop.
  - exists [], []. cbn [map app]. rewrite Htop. by rewrite app_nil_r.
  - destruct (IH (Some a) (Some a :: stack) eq_refl) as (pre & post & Hsplit & Hpre).
    apply (proj2 (walk_order_elem nd kids k)), list_elem_of_split in Hk
      as (l1 & l2 & Hwalk).
    assert (Hstack : map Some (chain ++ [a]) ++ stack
                     = map Some chain ++ Some a :: stack).
    { rewrite map_app. cbn [map]. by rewrite <- app_assoc. }
    exists (Ev (Some a) p true :: flat_map (events (Some a)) l1 ++ pre),
           (post ++ flat_map (events (Some a)) l2 ++ [Ev (Some a) p false]).
    rewrite Hstack. split.
    + rewrite events_unfold, Hwalk, flat_map_split, Hsplit.
      cbn [app]. f_equal. by rewrite <- !app_assoc.
    + cbn [nested]. rewrite decide_True by done.
      rewrite nested_flat_map; [done|].
      intros k' _. by apply events_nested.
Qed.

(** X14. In a tree whose parent links are wired, the nodes that are
    entered and not yet left at the moment a node is entered are exactly
    the nodes on its parent chain, the nearest on top: a consumer's stack
    of open nodes and the nodes [FindParent] would inspect from there are
    the same list. *)
Theorem visitExprNode_open_nodes_are_ancestors (h : heap) (t s : tree)
    (chain : list addr) :
  repr h t -> wired None t -> path t s chain ->
  ancestors h (root s) chain
  /\ exists pre post,
       events None t
       = pre ++ Ev (Some (root s)) (hd None (map Some chain)) true :: post
       /\ nested pre [] = Some (map Some chain)
       /\ forall (St : Type) (f : VisitExprNodeFunc St) (st : St) (fuel : nat),
            height t <= fuel ->
            VisitExprNode fuel h (Some (root t)) f st
            = Ret (run f (events None t) st).
Proof.
  intros Hrepr Hw Hpath. split.
  - rewrite <- (app_nil_r chain).
    eapply wired_path_ancestors; [exact Hrepr|exact Hw|constructor|exact Hpath].
  - destruct (path_events_stack t s chain Hpath None [] eq_refl)
      as (pre & post & Hsplit & Hpre).
    rewrite app_nil_r in Hsplit, Hpre.
    destruct s as [a nd kids]. rewrite events_unfold in Hsplit. cbn [root].
    eexists pre, _. split; [exact Hsplit|]. split; [exact Hpre|].
    intros St f st fuel Hfuel. by apply visitExprNode_events.
Qed.

Lemma visitExprNode_open_nodes_are_ancestors_witness :
  repr ex_index_heap ex_index_tree /\ wired None ex_index_tree
  /\ ancestors ex_index_heap 5%positive [4%positive; 1%positive]
  /\ exists pre post,
       events None ex_index_tree
       = pre ++ Ev (Some 5%positive) (Some 4%positive) true :: post
       /\ nested pre [] = Some [Some 4%positive; Some 1%positive].
Proof.
  assert (Hrepr : repr ex_index_heap ex_index_tree)
    by repeat (econstructor; try reflexivity).
  assert (Hw : wired None ex_index_tree)
    by repeat (econstructor; try reflexivity).
  split; [exact Hrepr|]. split; [exact Hw|].
  set (baz := Node 5%positive
                (VariableNode "baz" (Some (mkToken "baz" 1 9)) (Some 4%positive)) []).
  assert (Hp : path ex_index_tree baz ([4%positive] ++ [1%positive])).
  { apply (path_below 1%positive _ [ex_foo_bar; ex_baz_qux] ex_baz_qux baz [4%positive]);
      [right; left|].
    apply (path_below 4%positive _ [baz] baz baz []); [left|constructor]. }
  destruct (visitExprNode_open_nodes_are_ancestors ex_index_heap ex_index_tree baz
              _ Hrepr Hw Hp) as (Hanc & pre & post & Hsplit & Hpre & _).
  split; [exact Hanc|]. exists pre, post. split; [exact Hsplit|exact Hpre].
Defined.

(** ** Panics *)






